(** * Notebook steps: derivation of editor steps from a staged query

    Shallow embedding of
    [frontend/src/metabase/query_builder/components/notebook/lib/steps.ts].

    The file converts a (possibly multi-stage) structured query into the
    ordered list of notebook steps.  The query objects themselves
    ([StructuredQuery], the [Lib] functions over the current query
    representation, [Join], [Database], [Question]) are collaborators that
    live in [metabase-lib]; they enter this development as the interface
    [QueryLib].  Everything that [steps.ts] itself defines is translated
    function by function over that interface. *)

From stdpp Require Import base option list strings gmap pretty sorting.
From Stdlib Require Import Ascii ZArith Lia.

Open Scope string_scope.
Open Scope list_scope.
Open Scope Z_scope.
Open Scope nat_scope.

(** ** The collaborators of [steps.ts]

    One field per method or function that [steps.ts] calls.  A JavaScript
    value of type [number | null] is an [option nat]; a method that returns
    an object or [null] returns an [option]. *)

Class QueryLib := {
  StructuredQuery : Type;   (* metabase-lib/queries/StructuredQuery *)
  Query : Type;             (* metabase-lib/types Query, the top-level query *)
  DatasetQuery : Type;      (* argument of setDatasetQuery *)
  InnerQuery : Type;        (* result of StructuredQuery.query() *)
  Join : Type;
  Database : Type;
  Question : Type;
  (* StructuredQuery: inspection *)
  sourceQuery : StructuredQuery → option StructuredQuery;
  database : StructuredQuery → option Database;
  hasData : StructuredQuery → bool;
  joins : StructuredQuery → list Join;
  hasExpressions : StructuredQuery → bool;
  hasFilters : StructuredQuery → bool;
  hasAggregations : StructuredQuery → bool;
  hasBreakouts : StructuredQuery → bool;
  hasSorts : StructuredQuery → bool;
  hasAnyClauses : StructuredQuery → bool;
  (* StructuredQuery: clause operations *)
  removeJoin : StructuredQuery → option nat → StructuredQuery;
  updateJoin : StructuredQuery → option nat → Join → StructuredQuery;
  clearExpressions : StructuredQuery → StructuredQuery;
  cleanExpressions : StructuredQuery → StructuredQuery;
  clearFilters : StructuredQuery → StructuredQuery;
  cleanFilters : StructuredQuery → StructuredQuery;
  clearBreakouts : StructuredQuery → StructuredQuery;
  clearAggregations : StructuredQuery → StructuredQuery;
  cleanBreakouts : StructuredQuery → StructuredQuery;
  cleanAggregations : StructuredQuery → StructuredQuery;
  clearSort : StructuredQuery → StructuredQuery;
  cleanSorts : StructuredQuery → StructuredQuery;
  (* StructuredQuery: stages *)
  cleanNesting : StructuredQuery → StructuredQuery;
  nest : StructuredQuery → StructuredQuery;
  queries : StructuredQuery → list StructuredQuery;
  setSourceQuery : StructuredQuery → InnerQuery → StructuredQuery;
  setDatasetQuery : StructuredQuery → DatasetQuery → StructuredQuery;
  StructuredQuery_query : StructuredQuery → InnerQuery;
  rootQuery : StructuredQuery → StructuredQuery;
  question : StructuredQuery → Question;
  (* Join *)
  Join_isValid : Join → bool;
  Join_hasGaps : Join → bool;
  Join_clean : Join → Join;
  (* Database *)
  hasFeature : Database → string → bool;
  supportsExpressions : Database → bool;
  (* Question *)
  isStructured : Question → bool;
  Question_query : Question → StructuredQuery;
  Question_database : Question → option Database;
  getMLv2Query : Question → Query;
  (* Lib *)
  Lib_hasLimit : Query → Z → bool;
  Lib_limit : Query → Z → option nat → Query;
  Lib_toLegacyQuery : Query → DatasetQuery
}.

(** [openSteps[id]] read as a JavaScript truth value: a missing key is
    [undefined], which is falsy. *)
Definition isOpen (openSteps : gmap string bool) (id : string) : bool :=
  default false (openSteps !! id).

(** JavaScript array indexing [xs[i]] for an integer [i]: [undefined]
    below zero and past the end. *)
Definition jsIndex {A} (xs : list A) (i : Z) : option A :=
  if bool_decide (i < 0)%Z then None else xs !! Z.to_nat i.

(** No character of the string is a colon.  (The ids of the steps put a
    colon after the decimal stage index.) *)
Fixpoint colonFree (s : string) : bool :=
  match s with
  | EmptyString => true
  | String c s' => negb (Ascii.eqb c ":"%char) && colonFree s'
  end.

Section Steps.
Context {L : QueryLib}.

(** [NotebookStepFn<T>]: (query, index, topLevelQuery, stageIndex) => T *)
Definition NotebookStepFn (T : Type) : Type :=
  StructuredQuery → option nat → Query → Z → T.

(** [NotebookStepDef], an entry of the catalog.  A [revert] may be [null];
    the revert of [limit] indexes an array and so may yield no query. *)
Record NotebookStepDef := {
  STEP_type : string;
  STEP_valid : NotebookStepFn bool;
  STEP_active : NotebookStepFn bool;
  STEP_subSteps : option (StructuredQuery → nat);
  STEP_revert : option (NotebookStepFn (option StructuredQuery));
  STEP_clean : NotebookStepFn StructuredQuery
}.

Definition MLV2_STEPS : list string := ["limit"; "sort"].

Definition getMLv2StageIndex (index : nat) (stepType : string)
    (isLastStage : bool) : Z :=
  let isMLv2Step := bool_decide (stepType ∈ MLV2_STEPS) in
  if isMLv2Step && isLastStage then (-1)%Z else Z.of_nat index.

(** *** The catalog [STEPS] *)

Definition dataStep : NotebookStepDef := {|
  STEP_type := "data";
  STEP_valid := λ query _ _ _, negb (bool_decide (is_Some (sourceQuery query)));
  STEP_active := λ query _ _ _, true;
  STEP_subSteps := None;
  STEP_clean := λ query _ _ _, query;
  STEP_revert := None
|}.

Definition joinStep : NotebookStepDef := {|
  STEP_type := "join";
  STEP_valid := λ query _ _ _,
    hasData query &&
    match database query with
    | Some db => hasFeature db "join"
    | None => false
    end;
  STEP_subSteps := Some (λ query, length (joins query));
  STEP_active := λ query index _ _,
    match index with
    | Some i => bool_decide (i < length (joins query))
    | None => false
    end;
  STEP_revert := Some (λ query index _ _, Some (removeJoin query index));
  STEP_clean := λ query index _ _,
    let join := match index with
                | Some i => joins query !! i
                | None => None
                end in
    match join with
    | None => query
    | Some join =>
        if Join_isValid join || Join_hasGaps join then query
        else
          let cleanJoin := Join_clean join in
          if Join_isValid cleanJoin then updateJoin query index cleanJoin
          else removeJoin query index
    end
|}.

Definition expressionStep : NotebookStepDef := {|
  STEP_type := "expression";
  STEP_valid := λ query _ _ _,
    hasData query &&
    match database query with
    | Some db => supportsExpressions db
    | None => false
    end;
  STEP_subSteps := None;
  STEP_active := λ query _ _ _, hasExpressions query;
  STEP_revert := Some (λ query _ _ _, Some (clearExpressions query));
  STEP_clean := λ query _ _ _, cleanExpressions query
|}.

Definition filterStep : NotebookStepDef := {|
  STEP_type := "filter";
  STEP_valid := λ query _ _ _, hasData query;
  STEP_subSteps := None;
  STEP_active := λ query _ _ _, hasFilters query;
  STEP_revert := Some (λ query _ _ _, Some (clearFilters query));
  STEP_clean := λ query _ _ _, cleanFilters query
|}.

Definition summarizeStep : NotebookStepDef := {|
  STEP_type := "summarize";
  STEP_valid := λ query _ _ _, hasData query;
  STEP_subSteps := None;
  STEP_active := λ query _ _ _, hasAggregations query || hasBreakouts query;
  STEP_revert := Some (λ query _ _ _,
    Some (if hasAggregations query || hasBreakouts query
          then clearAggregations (clearBreakouts query)
          else query));
  STEP_clean := λ query _ _ _, cleanAggregations (cleanBreakouts query)
|}.

Definition sortStep : NotebookStepDef := {|
  STEP_type := "sort";
  STEP_valid := λ query _ _ _,
    hasData query &&
    (negb (hasAggregations query) || hasBreakouts query) &&
    (negb (bool_decide (is_Some (sourceQuery query))) || hasAnyClauses query);
  STEP_subSteps := None;
  STEP_active := λ query _ _ _, hasSorts query;
  STEP_revert := Some (λ query _ _ _, Some (clearSort query));
  STEP_clean := λ query _ _ _, cleanSorts query
|}.

Definition limitStep : NotebookStepDef := {|
  STEP_type := "limit";
  STEP_valid := λ query _ _ _,
    hasData query &&
    (negb (hasAggregations query) || hasBreakouts query) &&
    (negb (bool_decide (is_Some (sourceQuery query))) || hasAnyClauses query);
  STEP_subSteps := None;
  STEP_active := λ legacyQuery itemIndex query stageIndex,
    Lib_hasLimit query stageIndex;
  STEP_revert := Some (λ legacyQuery itemIndex query stageIndex,
    let reverted := Lib_limit query stageIndex None in
    let revertedLegacyQuery := Lib_toLegacyQuery reverted in
    let revertedStructuredQuery :=
      setDatasetQuery legacyQuery revertedLegacyQuery in
    let stagedQueries := queries revertedStructuredQuery in
    let safeStageIndex :=
      if bool_decide (stageIndex = -1)%Z
      then (Z.of_nat (length stagedQueries) - 1)%Z
      else stageIndex in
    jsIndex stagedQueries safeStageIndex);
  STEP_clean := λ query _ _ _, query
|}.

Definition STEPS : list NotebookStepDef :=
  [dataStep; joinStep; expressionStep; filterStep; summarizeStep;
   sortStep; limitStep].

(** *** Step instances *)

(** An entry of a step's [actions]: the type of the hidden step and the id
    that the [action] callback passes to [openStep]. *)
Record NotebookAction := {
  action_type : string;
  action_openStep : string
}.

(** [NotebookStep].  The fields [next] and [previous] are positions in the
    list returned by [getQuestionSteps] (see [next] and [previous] below);
    [update] walks that list (see [update]). *)
Record NotebookStep := {
  id : string;
  type : string;
  stageIndex : Z;
  itemIndex : option nat;
  topLevelQuery : Query;
  query : StructuredQuery;
  valid : bool;
  active : bool;
  visible : bool;
  testID : string;
  revert : option (StructuredQuery → option StructuredQuery);
  clean : StructuredQuery → StructuredQuery;
  actions : list NotebookAction;
  previewQuery : option StructuredQuery
}.

Definition set_previewQuery (p : option StructuredQuery) (s : NotebookStep)
    : NotebookStep :=
  {| id := id s; type := type s; stageIndex := stageIndex s;
     itemIndex := itemIndex s; topLevelQuery := topLevelQuery s;
     query := query s; valid := valid s; active := active s;
     visible := visible s; testID := testID s; revert := revert s;
     clean := clean s; actions := actions s; previewQuery := p |}.

Definition set_actions (a : list NotebookAction) (s : NotebookStep)
    : NotebookStep :=
  {| id := id s; type := type s; stageIndex := stageIndex s;
     itemIndex := itemIndex s; topLevelQuery := topLevelQuery s;
     query := query s; valid := valid s; active := active s;
     visible := visible s; testID := testID s; revert := revert s;
     clean := clean s; actions := a; previewQuery := previewQuery s |}.

(** [itemIndex != null && itemIndex > 0] *)
Definition isValidItemIndex (itemIndex : option nat) : bool :=
  match itemIndex with
  | Some i => bool_decide (0 < i)
  | None => false
  end.

Definition getId (_stageIndex : nat) (step : NotebookStepDef)
    (itemIndex : option nat) : string :=
  (pretty _stageIndex +:+ ":" +:+ STEP_type step) +:+
  (if isValidItemIndex itemIndex
   then ":" +:+ pretty (default 0 itemIndex)
   else "").

Definition getTestId (_stageIndex : nat) (step : NotebookStepDef)
    (itemIndex : option nat) : string :=
  let finalItemIndex :=
    if isValidItemIndex itemIndex then default 0 itemIndex else 0 in
  "step-" +:+ STEP_type step +:+ "-" +:+ pretty _stageIndex +:+ "-" +:+
  pretty finalItemIndex.

Definition getStep (topLevelQuery : Query) (stageQuery : StructuredQuery)
    (_stageIndex : nat) (isLastStage : bool) (openSteps : gmap string bool)
    (STEP : NotebookStepDef) (itemIndex : option nat) : NotebookStep :=
  let id := getId _stageIndex STEP itemIndex in
  let stageIndex := getMLv2StageIndex _stageIndex (STEP_type STEP) isLastStage in
  {| id := id;
     type := STEP_type STEP;
     stageIndex := stageIndex;
     itemIndex := itemIndex;
     topLevelQuery := topLevelQuery;
     query := stageQuery;
     valid := STEP_valid STEP stageQuery itemIndex topLevelQuery stageIndex;
     active := STEP_active STEP stageQuery itemIndex topLevelQuery stageIndex;
     visible :=
       STEP_valid STEP stageQuery itemIndex topLevelQuery stageIndex &&
       (STEP_active STEP stageQuery itemIndex topLevelQuery stageIndex ||
        isOpen openSteps id);
     testID := getTestId _stageIndex STEP itemIndex;
     revert :=
       match STEP_revert STEP with
       | Some r => Some (λ query, r query itemIndex topLevelQuery stageIndex)
       | None => None
       end;
     clean := λ query, STEP_clean STEP query itemIndex topLevelQuery stageIndex;
     actions := [];
     previewQuery := None |}.

(** The list built by [_.flatten(STEPS.map(...))]: one instance per catalog
    entry, or [subSteps + 1] instances for an entry with [subSteps]. *)
Definition rawSteps (topLevelQuery : Query) (stageQuery : StructuredQuery)
    (_stageIndex : nat) (isLastStage : bool) (openSteps : gmap string bool)
    : list NotebookStep :=
  concat (map (λ STEP,
    match STEP_subSteps STEP with
    | Some subSteps =>
        let itemIndexes := seq 0 (subSteps stageQuery + 1) in
        map (λ itemIndex,
               getStep topLevelQuery stageQuery _stageIndex isLastStage
                 openSteps STEP (Some itemIndex))
            itemIndexes
    | None =>
        [getStep topLevelQuery stageQuery _stageIndex isLastStage
           openSteps STEP None]
    end) STEPS).

(** State of the reverse loop of [getStageSteps]: the steps kept so far
    (those to the right of the cursor), the [actions] accumulator and the
    running [previewQuery]. *)
Record StageLoop := {
  loop_steps : list NotebookStep;
  loop_actions : list NotebookAction;
  loop_previewQuery : option StructuredQuery
}.

(** One iteration of [for (let i = steps.length - 1; i >= 0; i--)]. *)
Definition stageLoopBody (step : NotebookStep) (st : StageLoop) : StageLoop :=
  let st1 :=
    if visible step then
      {| loop_steps :=
           set_actions (loop_actions st)
             (set_previewQuery
                (if active step then loop_previewQuery st else None) step)
           :: loop_steps st;
         loop_actions := [];
         loop_previewQuery := loop_previewQuery st |}
    else
      {| loop_steps := loop_steps st;   (* steps.splice(i, 1) *)
         loop_actions :=
           if valid step
           then {| action_type := type step; action_openStep := id step |}
                :: loop_actions st
           else loop_actions st;
         loop_previewQuery := loop_previewQuery st |} in
  match revert step, loop_previewQuery st1 with
  | Some r, Some p =>
      {| loop_steps := loop_steps st1;
         loop_actions := loop_actions st1;
         loop_previewQuery := r p |}
  | _, _ => st1
  end.

(** The loop visits the last step first: a right fold. *)
Definition stageLoop (stageQuery : StructuredQuery)
    (steps : list NotebookStep) : StageLoop :=
  foldr stageLoopBody
    {| loop_steps := []; loop_actions := [];
       loop_previewQuery := Some stageQuery |}
    steps.

Record StageSteps := {
  steps : list NotebookStep;
  stage_actions : list NotebookAction
}.

Definition getStageSteps (topLevelQuery : Query) (stageQuery : StructuredQuery)
    (_stageIndex : nat) (isLastStage : bool) (openSteps : gmap string bool)
    : StageSteps :=
  let st := stageLoop stageQuery
              (rawSteps topLevelQuery stageQuery _stageIndex isLastStage
                 openSteps) in
  {| steps := loop_steps st; stage_actions := loop_actions st |}.

(** [allSteps[allSteps.length - 1].actions.push(...actions)], guarded by
    [allSteps.length > 0]. *)
Definition pushActions (allSteps : list NotebookStep)
    (acts : list NotebookAction) : list NotebookStep :=
  match length allSteps with
  | 0 => allSteps
  | S n => alter (λ s, set_actions (actions s ++ acts) s) n allSteps
  end.

(** Body of the loop over [stagedQueries.entries()]. *)
Definition questionLoopBody (topLevelQuery : Query) (stageCount : nat)
    (openSteps : gmap string bool) (allSteps : list NotebookStep)
    (entry : nat * StructuredQuery) : list NotebookStep :=
  let '(stageIndex, stageQuery) := entry in
  let isLastStage := bool_decide (stageIndex = stageCount - 1) in
  let r := getStageSteps topLevelQuery stageQuery stageIndex isLastStage
             openSteps in
  pushActions allSteps (stage_actions r) ++ steps r.

(** The query whose stages are derived: nesting cleaned, and one stage
    appended when the database allows nesting and there are breakouts. *)
Definition stagedQuery (question : Question) : StructuredQuery :=
  let query := Question_query question in
  let database := Question_database question in
  let allowsNesting :=
    match database with
    | Some db => hasFeature db "nested-queries"
    | None => false
    end in
  let query := cleanNesting query in
  if allowsNesting && hasBreakouts query then nest query else query.

Definition getQuestionSteps (question0 : Question)
    (openSteps : gmap string bool) : list NotebookStep :=
  if isStructured question0 then
    let query := Question_query question0 in
    let topLevelQuery := getMLv2Query (question (rootQuery query)) in
    let stagedQueries := queries (stagedQuery question0) in
    foldl (questionLoopBody topLevelQuery (length stagedQueries) openSteps)
      [] (imap pair stagedQueries)
  else [].

(** [step.next] and [step.previous] of the step at position [index]. *)
Definition next (allSteps : list NotebookStep) (index : nat)
    : option NotebookStep :=
  allSteps !! (index + 1).

Definition previous (allSteps : list NotebookStep) (index : nat)
    : option NotebookStep :=
  match index with
  | 0 => None
  | S i => allSteps !! i
  end.

(** The [while ((current = current.next))] loop of [update]; [prev] is
    [current.previous], [rest] the steps from [current] on. *)
Fixpoint updateWalk (prev : NotebookStep) (rest : list NotebookStep)
    (newQuery : StructuredQuery) : StructuredQuery :=
  match rest with
  | [] => newQuery
  | current :: rest' =>
      let newQuery :=
        if bool_decide (stageIndex prev < stageIndex current)%Z
        then setSourceQuery (query current) (StructuredQuery_query newQuery)
        else newQuery in
      updateWalk current rest' (clean current newQuery)
  end.

(** What [update] does once the edited stage's query is set: clean every
    later step, then strip empty source queries. *)
Definition cascade (allSteps : list NotebookStep) (index : nat)
    (newQuery : StructuredQuery) : option StructuredQuery :=
  match allSteps !! index with
  | Some step =>
      Some (cleanNesting (updateWalk step (drop (S index) allSteps) newQuery))
  | None => None
  end.

(** [allSteps[index].update(datasetQuery)] *)
Definition update (allSteps : list NotebookStep) (index : nat)
    (datasetQuery : DatasetQuery) : option StructuredQuery :=
  match allSteps !! index with
  | Some step =>
      cascade allSteps index (setDatasetQuery (query step) datasetQuery)
  | None => None
  end.

(** *** The derivation as the specification words it

    Section 4.2 of the specification describes the reverse loop by what
    each kept step receives.  These definitions follow that wording; the
    theorems below relate them to [stageLoop]. *)

(** The query with the revert of every step of [later] that defines one
    applied, the last step first, each result the base of the next. *)
Definition revertChain (later : list NotebookStep)
    (stageQuery : StructuredQuery) : option StructuredQuery :=
  foldr (λ step acc,
           match revert step with
           | Some r => acc ≫= r
           | None => acc
           end)
    (Some stageQuery) later.

(** The actions a visible step receives: one per valid step among the
    hidden steps that follow it, up to the next visible step. *)
Fixpoint pendingActions (later : list NotebookStep) : list NotebookAction :=
  match later with
  | [] => []
  | step :: later' =>
      if visible step then []
      else (if valid step
            then [{| action_type := type step; action_openStep := id step |}]
            else []) ++ pendingActions later'
  end.

(** The visible steps, each with its preview and its actions. *)
Fixpoint keptSteps (stageQuery : StructuredQuery)
    (raw : list NotebookStep) : list NotebookStep :=
  match raw with
  | [] => []
  | step :: later =>
      if visible step then
        set_actions (pendingActions later)
          (set_previewQuery
             (if active step then revertChain later stageQuery else None)
             step)
        :: keptSteps stageQuery later
      else keptSteps stageQuery later
  end.

(** The stage index the specification gives a step of type [stepType]
    derived for stage [index] of [stageCount] stages: the sentinel [-1] for
    [sort] and [limit] in the last stage, the literal index otherwise. *)
Definition expectedStageIndex (index stageCount : nat) (stepType : string)
    : Z :=
  if bool_decide (stepType = "sort" ∨ stepType = "limit") then
    if bool_decide (index = stageCount - 1) then (-1)%Z else Z.of_nat index
  else Z.of_nat index.

(** Two step instances that differ at most in their [actions]. *)
Definition sameButActions (s s' : NotebookStep) : Prop :=
  ∃ acts, s' = set_actions acts s.

(** *** Notions used to state further properties of the derivation *)

(** The catalog entries and item indexes a stage instantiates: the
    arguments that [STEPS.map(...)] hands to [getStep], in order. *)
Definition rawEntries (stageQuery : StructuredQuery)
    : list (NotebookStepDef * option nat) :=
  concat (map (λ STEP,
    match STEP_subSteps STEP with
    | Some subSteps =>
        map (λ itemIndex, (STEP, Some itemIndex))
          (seq 0 (subSteps stageQuery + 1))
    | None => [(STEP, None)]
    end) STEPS).

(** A step without what the reverse loop and the stage loop fill in. *)
Definition underived (s : NotebookStep) : NotebookStep :=
  set_actions [] (set_previewQuery None s).

(** The action that offers to open a hidden step. *)
Definition openAction (s : NotebookStep) : NotebookAction :=
  {| action_type := type s; action_openStep := id s |}.

(** One action per hidden valid instance, in order. *)
Definition hiddenActions (raw : list NotebookStep) : list NotebookAction :=
  openAction <$> filter (λ s, visible s = false ∧ valid s = true) raw.

(** The stages that [getQuestionSteps] loops over, with their indexes, and
    what it derives for one of them. *)
Definition stageEntries (question0 : Question)
    : list (nat * StructuredQuery) :=
  imap pair (queries (stagedQuery question0)).

Definition stageRawSteps (question0 : Question)
    (openSteps : gmap string bool) (entry : nat * StructuredQuery)
    : list NotebookStep :=
  rawSteps (getMLv2Query (question (rootQuery (Question_query question0))))
    entry.2 entry.1
    (bool_decide (entry.1 = length (queries (stagedQuery question0)) - 1))
    openSteps.

Definition stageResult (question0 : Question)
    (openSteps : gmap string bool) (entry : nat * StructuredQuery)
    : StageSteps :=
  getStageSteps (getMLv2Query (question (rootQuery (Question_query question0))))
    entry.2 entry.1
    (bool_decide (entry.1 = length (queries (stagedQuery question0)) - 1))
    openSteps.

(** What [getId] writes after the stage index and its colon: the type of
    the catalog entry and, for an item index above [0], a colon and the
    index. *)
Definition idTail (e : NotebookStepDef * option nat) : string :=
  STEP_type e.1 +:+
  (if isValidItemIndex e.2 then ":" +:+ pretty (default 0 e.2) else "").

End Steps.

(** ** A list model of the query collaborator *)

(** Modelled from the spec: the query collaborator ([StructuredQuery],
    [Join], [Database], [Question] and the [Lib] functions of
    [metabase-lib]), which [steps.ts] only consumes through the interface
    of section 6 of the specification.  A query is a pipeline of stages,
    each stage feeding the next one's source; a stage holds its joins,
    expressions, filters, aggregations, breakouts, sorts and limit; [has*]
    tests whether the clause list holds something, [clear*] and
    [removeJoin] remove clauses, [clean*] drops the clauses that cannot be
    kept, [cleanNesting] strips the stages that add nothing to their
    source, and [nest] appends an empty stage.  It supplies the concrete
    inputs at which the theorems below are exercised. *)

Module Model.

Record MClause := { clause_ref : nat; clause_ok : bool }.

Record MJoin := {
  join_table : nat;
  join_valid : bool;
  join_gaps : bool;
  join_repairable : bool
}.

Record MStage := {
  stage_table : option nat;
  stage_joins : list MJoin;
  stage_expressions : list MClause;
  stage_filters : list MClause;
  stage_aggregations : list MClause;
  stage_breakouts : list MClause;
  stage_sorts : list MClause;
  stage_limit : option nat
}.

Record MDatabase := { db_features : list string }.

(** A query seen at its last stage [q_stage]; [q_sources] are the stages
    below it, the root first. *)
Record MInner := { q_sources : list MStage; q_stage : MStage }.

Record MQuery := { q_database : option MDatabase; q_inner : MInner }.

Record MQuestion := {
  question_structured : bool;
  question_query : MQuery;
  question_database : option MDatabase
}.

Definition emptyStage : MStage :=
  {| stage_table := None; stage_joins := []; stage_expressions := [];
     stage_filters := []; stage_aggregations := []; stage_breakouts := [];
     stage_sorts := []; stage_limit := None |}.

Definition allStages (q : MQuery) : list MStage :=
  q_sources (q_inner q) ++ [q_stage (q_inner q)].

(** The query made of the stages [below ++ [top]]. *)
Definition mkQuery (db : option MDatabase) (below : list MStage)
    (top : MStage) : MQuery :=
  {| q_database := db;
     q_inner := {| q_sources := below; q_stage := top |} |}.

(** The query with its own stage replaced. *)
Definition withStage (q : MQuery) (s : MStage) : MQuery :=
  mkQuery (q_database q) (q_sources (q_inner q)) s.

Definition thisStage (q : MQuery) : MStage := q_stage (q_inner q).

Definition setJoins (js : list MJoin) (s : MStage) : MStage :=
  {| stage_table := stage_table s; stage_joins := js;
     stage_expressions := stage_expressions s;
     stage_filters := stage_filters s;
     stage_aggregations := stage_aggregations s;
     stage_breakouts := stage_breakouts s;
     stage_sorts := stage_sorts s; stage_limit := stage_limit s |}.

Definition setExpressions (cs : list MClause) (s : MStage) : MStage :=
  {| stage_table := stage_table s; stage_joins := stage_joins s;
     stage_expressions := cs;
     stage_filters := stage_filters s;
     stage_aggregations := stage_aggregations s;
     stage_breakouts := stage_breakouts s;
     stage_sorts := stage_sorts s; stage_limit := stage_limit s |}.

Definition setFilters (cs : list MClause) (s : MStage) : MStage :=
  {| stage_table := stage_table s; stage_joins := stage_joins s;
     stage_expressions := stage_expressions s;
     stage_filters := cs;
     stage_aggregations := stage_aggregations s;
     stage_breakouts := stage_breakouts s;
     stage_sorts := stage_sorts s; stage_limit := stage_limit s |}.

Definition setAggregations (cs : list MClause) (s : MStage) : MStage :=
  {| stage_table := stage_table s; stage_joins := stage_joins s;
     stage_expressions := stage_expressions s;
     stage_filters := stage_filters s;
     stage_aggregations := cs;
     stage_breakouts := stage_breakouts s;
     stage_sorts := stage_sorts s; stage_limit := stage_limit s |}.

Definition setBreakouts (cs : list MClause) (s : MStage) : MStage :=
  {| stage_table := stage_table s; stage_joins := stage_joins s;
     stage_expressions := stage_expressions s;
     stage_filters := stage_filters s;
     stage_aggregations := stage_aggregations s;
     stage_breakouts := cs;
     stage_sorts := stage_sorts s; stage_limit := stage_limit s |}.

Definition setSorts (cs : list MClause) (s : MStage) : MStage :=
  {| stage_table := stage_table s; stage_joins := stage_joins s;
     stage_expressions := stage_expressions s;
     stage_filters := stage_filters s;
     stage_aggregations := stage_aggregations s;
     stage_breakouts := stage_breakouts s;
     stage_sorts := cs; stage_limit := stage_limit s |}.

Definition setLimit (n : option nat) (s : MStage) : MStage :=
  {| stage_table := stage_table s; stage_joins := stage_joins s;
     stage_expressions := stage_expressions s;
     stage_filters := stage_filters s;
     stage_aggregations := stage_aggregations s;
     stage_breakouts := stage_breakouts s;
     stage_sorts := stage_sorts s; stage_limit := n |}.

Definition nonEmpty {A} (l : list A) : bool :=
  match l with [] => false | _ :: _ => true end.

Definition stageHasClauses (s : MStage) : bool :=
  nonEmpty (stage_joins s) || nonEmpty (stage_expressions s) ||
  nonEmpty (stage_filters s) || nonEmpty (stage_aggregations s) ||
  nonEmpty (stage_breakouts s) || nonEmpty (stage_sorts s) ||
  bool_decide (is_Some (stage_limit s)).

(** Modelled from the spec: what the collaborator's [clean*] operations
    do to the clauses of one kind (the specification's "drop-if-unfixable"):
    the clauses that are in order stay, the others are dropped. *)
Definition keepOk (cs : list MClause) : list MClause :=
  filter (λ c, clause_ok c = true) cs.

(** The stage lists of a pipeline, one per stage: each stage with the
    stages below it. *)
Fixpoint prefixes (db : option MDatabase) (below : list MStage)
    (rest : list MStage) : list MQuery :=
  match rest with
  | [] => []
  | s :: rest' => mkQuery db below s :: prefixes db (below ++ [s]) rest'
  end.

Definition m_sourceQuery (q : MQuery) : option MQuery :=
  match reverse (q_sources (q_inner q)) with
  | [] => None
  | s :: below => Some (mkQuery (q_database q) (reverse below) s)
  end.

Definition m_cleanNesting (q : MQuery) : MQuery :=
  match allStages q with
  | [] => q
  | root :: later =>
      match reverse (root :: filter (λ s, stageHasClauses s = true) later) with
      | [] => q
      | top :: below => mkQuery (q_database q) (reverse below) top
      end
  end.

(** The stage that a stage index of the current representation addresses:
    [-1] is the last stage. *)
Definition stageNumber (q : MQuery) (stageIndex : Z) : option nat :=
  if bool_decide (stageIndex = -1)%Z then Some (length (q_sources (q_inner q)))
  else if bool_decide (0 ≤ stageIndex)%Z
       then (if bool_decide (Z.to_nat stageIndex < length (allStages q))
             then Some (Z.to_nat stageIndex) else None)
       else None.

Definition m_hasLimit (q : MQuery) (stageIndex : Z) : bool :=
  match stageNumber q stageIndex with
  | Some n =>
      match allStages q !! n with
      | Some s => bool_decide (is_Some (stage_limit s))
      | None => false
      end
  | None => false
  end.

Definition m_limit (q : MQuery) (stageIndex : Z) (n : option nat) : MQuery :=
  match stageNumber q stageIndex with
  | Some k =>
      match reverse (alter (setLimit n) k (allStages q)) with
      | [] => q
      | top :: below => mkQuery (q_database q) (reverse below) top
      end
  | None => q
  end.

(** The stage's query as it stood with only its data: the source (table
    or stages below) kept, every clause of the stage removed. *)
Definition dataOnly (q : MQuery) : MQuery :=
  mkQuery (q_database q) (q_sources (q_inner q))
    {| stage_table := stage_table (q_stage (q_inner q));
       stage_joins := []; stage_expressions := []; stage_filters := [];
       stage_aggregations := []; stage_breakouts := []; stage_sorts := [];
       stage_limit := None |}.

(** The stage of the top-level query [top] that [stageIndex] addresses,
    seen as a query of its own. *)
Definition stageAddressed (top : MQuery) (stageIndex : Z) : option MQuery :=
  stageNumber top stageIndex ≫= λ n,
    prefixes (q_database top) [] (allStages top) !! n.

(** Modelled from the spec: the operations of the query collaborator
    (section 6 of the specification) over the stage lists above. *)
#[export] Instance lib : QueryLib := {|
  StructuredQuery := MQuery;
  Query := MQuery;
  DatasetQuery := MQuery;
  InnerQuery := MInner;
  Join := MJoin;
  Database := MDatabase;
  Question := MQuestion;
  sourceQuery := m_sourceQuery;
  database := q_database;
  hasData := λ q,
    bool_decide (is_Some (stage_table (thisStage q))) ||
    nonEmpty (q_sources (q_inner q));
  joins := λ q, stage_joins (thisStage q);
  hasExpressions := λ q, nonEmpty (stage_expressions (thisStage q));
  hasFilters := λ q, nonEmpty (stage_filters (thisStage q));
  hasAggregations := λ q, nonEmpty (stage_aggregations (thisStage q));
  hasBreakouts := λ q, nonEmpty (stage_breakouts (thisStage q));
  hasSorts := λ q, nonEmpty (stage_sorts (thisStage q));
  hasAnyClauses := λ q, stageHasClauses (thisStage q);
  removeJoin := λ q index,
    withStage q
      (setJoins (delete (default 0 index) (stage_joins (thisStage q)))
         (thisStage q));
  updateJoin := λ q index j,
    withStage q
      (setJoins (<[default 0 index := j]> (stage_joins (thisStage q)))
         (thisStage q));
  clearExpressions := λ q, withStage q (setExpressions [] (thisStage q));
  cleanExpressions := λ q,
    withStage q
      (setExpressions (keepOk (stage_expressions (thisStage q))) (thisStage q));
  clearFilters := λ q, withStage q (setFilters [] (thisStage q));
  cleanFilters := λ q,
    withStage q (setFilters (keepOk (stage_filters (thisStage q))) (thisStage q));
  clearBreakouts := λ q, withStage q (setBreakouts [] (thisStage q));
  clearAggregations := λ q, withStage q (setAggregations [] (thisStage q));
  cleanBreakouts := λ q,
    withStage q
      (setBreakouts (keepOk (stage_breakouts (thisStage q))) (thisStage q));
  cleanAggregations := λ q,
    withStage q
      (setAggregations (keepOk (stage_aggregations (thisStage q)))
         (thisStage q));
  clearSort := λ q, withStage q (setSorts [] (thisStage q));
  cleanSorts := λ q,
    withStage q (setSorts (keepOk (stage_sorts (thisStage q))) (thisStage q));
  cleanNesting := m_cleanNesting;
  nest := λ q, mkQuery (q_database q) (allStages q) emptyStage;
  queries := λ q, prefixes (q_database q) [] (allStages q);
  setSourceQuery := λ q inner,
    mkQuery (q_database q) (q_sources inner ++ [q_stage inner]) (thisStage q);
  setDatasetQuery := λ _ datasetQuery, datasetQuery;
  StructuredQuery_query := q_inner;
  rootQuery := λ q, q;
  question := λ q,
    {| question_structured := true; question_query := q;
       question_database := q_database q |};
  Join_isValid := join_valid;
  Join_hasGaps := join_gaps;
  Join_clean := λ j,
    if join_repairable j
    then {| join_table := join_table j; join_valid := true;
            join_gaps := false; join_repairable := true |}
    else j;
  hasFeature := λ db feature, bool_decide (feature ∈ db_features db);
  supportsExpressions := λ db, bool_decide ("expressions" ∈ db_features db);
  isStructured := question_structured;
  Question_query := question_query;
  Question_database := question_database;
  getMLv2Query := question_query;
  Lib_hasLimit := m_hasLimit;
  Lib_limit := m_limit;
  Lib_toLegacyQuery := λ q, q
|}.

End Model.

(** ** Concrete questions over the list model *)

Module Examples.
Import Model.

Definition sampleDb : MDatabase :=
  {| db_features := ["join"; "expressions"; "nested-queries"] |}.

Definition clause (n : nat) : MClause := {| clause_ref := n; clause_ok := true |}.

(** A stage that reads table 1 and holds no clause. *)
Definition tableStage : MStage :=
  {| stage_table := Some 1; stage_joins := []; stage_expressions := [];
     stage_filters := []; stage_aggregations := []; stage_breakouts := [];
     stage_sorts := []; stage_limit := None |}.

Definition questionOf (q : MQuery) : MQuestion :=
  {| question_structured := true; question_query := q;
     question_database := q_database q |}.

(** Table only. *)
Definition plainQuery : MQuery := mkQuery (Some sampleDb) [] tableStage.
Definition plainQuestion : MQuestion := questionOf plainQuery.

(** Joins in the three states the join step's [clean] tells apart. *)
Definition goodJoin (t : nat) : MJoin :=
  {| join_table := t; join_valid := true; join_gaps := false;
     join_repairable := true |}.
Definition brokenJoin (t : nat) : MJoin :=
  {| join_table := t; join_valid := false; join_gaps := false;
     join_repairable := false |}.
Definition gapJoin (t : nat) : MJoin :=
  {| join_table := t; join_valid := false; join_gaps := true;
     join_repairable := false |}.

Definition twoJoinsQuery : MQuery :=
  mkQuery (Some sampleDb) [] (setJoins [goodJoin 7; goodJoin 8] tableStage).
Definition twoJoinsQuestion : MQuestion := questionOf twoJoinsQuery.

(** Three joins, the second and the third broken (as when both depend on
    what an edit of the first one took away). *)
Definition brokenJoinsQuery : MQuery :=
  mkQuery (Some sampleDb) []
    (setJoins [goodJoin 7; brokenJoin 8; brokenJoin 9] tableStage).
Definition brokenJoinsQuestion : MQuestion := questionOf brokenJoinsQuery.

Definition gapJoinQuery : MQuery :=
  mkQuery (Some sampleDb) [] (setJoins [gapJoin 7] tableStage).

(** A clause that is not in order, and a stage with two filters of which
    the second is such a clause. *)
Definition staleClause (n : nat) : MClause :=
  {| clause_ref := n; clause_ok := false |}.
Definition staleFilterQuery : MQuery :=
  mkQuery (Some sampleDb) []
    (setFilters [clause 2; staleClause 3] tableStage).

(** A count with a row limit and no breakout. *)
Definition countLimitQuery : MQuery :=
  mkQuery (Some sampleDb) []
    (setLimit (Some 10) (setAggregations [clause 1] tableStage)).
Definition countLimitQuestion : MQuestion := questionOf countLimitQuery.

(** A filter, a sort and a limit. *)
Definition filterSortLimitQuery : MQuery :=
  mkQuery (Some sampleDb) []
    (setLimit (Some 10)
       (setSorts [clause 3] (setFilters [clause 2] tableStage))).
Definition filterSortLimitQuestion : MQuestion :=
  questionOf filterSortLimitQuery.

(** Two stages: a grouped count, then a filter and a sort on its result. *)
Definition twoStageQuery : MQuery :=
  mkQuery (Some sampleDb)
    [setBreakouts [clause 5] (setAggregations [clause 4] tableStage)]
    (setSorts [clause 7] (setFilters [clause 6] emptyStage)).
Definition twoStageQuestion : MQuestion := questionOf twoStageQuery.

(** Two stages, the second holding a sort only. *)
Definition groupedStage : MStage :=
  setBreakouts [clause 5] (setAggregations [clause 4] tableStage).
Definition sortOnlyQuery : MQuery :=
  mkQuery (Some sampleDb) [groupedStage] (setSorts [clause 7] emptyStage).
Definition sortOnlyQuestion : MQuestion := questionOf sortOnlyQuery.

(** A limited table under a stage that adds nothing: [cleanNesting]
    strips the upper stage. *)
Definition limitedStage : MStage := setLimit (Some 10) tableStage.
Definition trailingEmptyQuery : MQuery :=
  mkQuery (Some sampleDb) [limitedStage] emptyStage.
Definition trailingEmptyQuestion : MQuestion := questionOf trailingEmptyQuery.

End Examples.

(** ** Properties of the derivation, for every query collaborator *)

Section StepsFacts.
Context {L : QueryLib}.

Implicit Types (s : NotebookStep) (STEP : NotebookStepDef).
Implicit Types (openSteps : gmap string bool).

(** *** The raw list *)

Lemma rawSteps_elem topQ stageQuery i isLast openSteps s :
  s ∈ rawSteps topQ stageQuery i isLast openSteps →
  ∃ STEP itemIndex,
    STEP ∈ STEPS ∧
    s = getStep topQ stageQuery i isLast openSteps STEP itemIndex.
Proof.
  unfold rawSteps. rewrite list_elem_of_In, in_concat.
  intros (l & Hl & Hs). apply in_map_iff in Hl as (STEP & <- & HSTEP).
  apply list_elem_of_In in HSTEP.
  destruct (STEP_subSteps STEP) as [f|].
  - apply in_map_iff in Hs as (k & <- & _). eauto.
  - destruct Hs as [<-|[]]. eauto.
Qed.

Lemma getStep_visible topQ stageQuery i isLast openSteps STEP itemIndex :
  let s := getStep topQ stageQuery i isLast openSteps STEP itemIndex in
  visible s = valid s && (active s || isOpen openSteps (id s)).
Proof. reflexivity. Qed.

(** *** The reverse loop computes the specification's fold *)

Lemma stageLoop_spec stageQuery raw :
  stageLoop stageQuery raw =
  {| loop_steps := keptSteps stageQuery raw;
     loop_actions := pendingActions raw;
     loop_previewQuery := revertChain raw stageQuery |}.
Proof.
  induction raw as [|s raw IH]; [reflexivity|].
  unfold stageLoop in *. cbn [foldr]. rewrite IH. clear IH.
  unfold stageLoopBody. cbn [keptSteps pendingActions revertChain foldr].
  fold (revertChain raw stageQuery).
  destruct (visible s), (valid s), (revert s) as [r|],
    (revertChain raw stageQuery) as [p|]; reflexivity.
Qed.

Lemma getStageSteps_steps topQ stageQuery i isLast openSteps :
  steps (getStageSteps topQ stageQuery i isLast openSteps) =
  keptSteps stageQuery (rawSteps topQ stageQuery i isLast openSteps).
Proof. unfold getStageSteps. rewrite stageLoop_spec. reflexivity. Qed.

Lemma getStageSteps_actions topQ stageQuery i isLast openSteps :
  stage_actions (getStageSteps topQ stageQuery i isLast openSteps) =
  pendingActions (rawSteps topQ stageQuery i isLast openSteps).
Proof. unfold getStageSteps. rewrite stageLoop_spec. reflexivity. Qed.

Lemma keptSteps_elem stageQuery raw s' :
  s' ∈ keptSteps stageQuery raw →
  ∃ l1 s l2,
    raw = l1 ++ s :: l2 ∧ visible s = true ∧
    s' = set_actions (pendingActions l2)
           (set_previewQuery
              (if active s then revertChain l2 stageQuery else None) s).
Proof.
  induction raw as [|s raw IH]; cbn [keptSteps].
  - intros H. by apply elem_of_nil in H.
  - destruct (visible s) eqn:Hv.
    + intros [->|H]%elem_of_cons.
      * exists [], s, raw. done.
      * destruct (IH H) as (l1 & s0 & l2 & -> & ? & ->).
        exists (s :: l1), s0, l2. done.
    + intros H. destruct (IH H) as (l1 & s0 & l2 & -> & ? & ->).
      exists (s :: l1), s0, l2. done.
Qed.

Lemma keptSteps_intro stageQuery l1 s l2 :
  visible s = true →
  set_actions (pendingActions l2)
    (set_previewQuery
       (if active s then revertChain l2 stageQuery else None) s)
  ∈ keptSteps stageQuery (l1 ++ s :: l2).
Proof.
  intros Hv. induction l1 as [|s1 l1 IH]; cbn [keptSteps app].
  - rewrite Hv. apply elem_of_cons. by left.
  - destruct (visible s1); [apply elem_of_cons; by right|done].
Qed.

(** Every kept step is a raw step up to its preview and its actions. *)
Lemma keptSteps_raw stageQuery raw s' :
  s' ∈ keptSteps stageQuery raw →
  ∃ s acts p, s ∈ raw ∧ s' = set_actions acts (set_previewQuery p s).
Proof.
  intros (l1 & s & l2 & -> & _ & ->)%keptSteps_elem.
  eexists s, _, _. split; [|done].
  apply elem_of_app. right. apply elem_of_cons. by left.
Qed.

(** *** The loop over the stages *)

Lemma sameButActions_refl s : sameButActions s s.
Proof. exists (actions s). by destruct s. Qed.

Lemma sameButActions_trans s1 s2 s3 :
  sameButActions s1 s2 → sameButActions s2 s3 → sameButActions s1 s3.
Proof. intros [a ->] [b ->]. by exists b. Qed.

Lemma pushActions_elem allSteps acts s' :
  s' ∈ pushActions allSteps acts →
  ∃ s, s ∈ allSteps ∧ sameButActions s s'.
Proof.
  unfold pushActions. destruct (length allSteps) as [|n].
  { intros H. exists s'. split; [done|apply sameButActions_refl]. }
  intros [j Hj]%list_elem_of_lookup_1.
  rewrite list_lookup_alter in Hj. case_decide as Hn.
  - destruct (allSteps !! n) as [s|] eqn:E; simpl in Hj; [|discriminate].
    injection Hj as <-.
    exists s. split; [by eapply list_elem_of_lookup_2|].
    by exists (actions s ++ acts).
  - exists s'. split; [by eapply list_elem_of_lookup_2|].
    apply sameButActions_refl.
Qed.

(** An invariant of the stage loop: a property of steps that ignores
    [actions] and holds of every stage's steps holds of all steps. *)
Lemma questionLoop_invariant (P : NotebookStep → Prop) topQ n openSteps
    entries allSteps :
  (∀ s s', P s → sameButActions s s' → P s') →
  (∀ s, s ∈ allSteps → P s) →
  (∀ i stageQuery s,
     (i, stageQuery) ∈ entries →
     s ∈ steps (getStageSteps topQ stageQuery i (bool_decide (i = n - 1))
                  openSteps) →
     P s) →
  ∀ s, s ∈ foldl (questionLoopBody topQ n openSteps) allSteps entries → P s.
Proof.
  intros Hsame. revert allSteps.
  induction entries as [|[i stageQuery] entries IH]; intros allSteps Hacc Hst.
  { done. }
  cbn [foldl]. apply IH.
  - intros s. unfold questionLoopBody.
    intros [H|H]%elem_of_app.
    + apply pushActions_elem in H as (s0 & Hs0 & Hsb). eauto.
    + apply (Hst i stageQuery); [apply elem_of_cons; by left|done].
  - intros j q s Hin. apply Hst. apply elem_of_cons. by right.
Qed.

(** Every step that [getQuestionSteps] returns is, up to its actions, a
    step that [getStageSteps] returned for one of the stages, called with
    [isLastStage] true exactly at the last index. *)
Lemma getQuestionSteps_elem question0 openSteps s :
  s ∈ getQuestionSteps question0 openSteps →
  let stagedQueries := queries (stagedQuery question0) in
  let topQ := getMLv2Query (question (rootQuery (Question_query question0))) in
  ∃ i stageQuery s0,
    stagedQueries !! i = Some stageQuery ∧
    s0 ∈ steps (getStageSteps topQ stageQuery i
                  (bool_decide (i = length stagedQueries - 1)) openSteps) ∧
    sameButActions s0 s.
Proof.
  unfold getQuestionSteps. destruct (isStructured question0).
  2: { intros H. by apply elem_of_nil in H. }
  intros H. cbn zeta. revert s H.
  apply questionLoop_invariant.
  - intros s s' (i & q & s0 & ? & ? & ?) Hs.
    exists i, q, s0. eauto using sameButActions_trans.
  - intros s H. by apply elem_of_nil in H.
  - intros i q s Hin Hs.
    apply elem_of_lookup_imap in Hin as (j & q' & [= -> ->] & Hj).
    exists j, q', s. eauto using sameButActions_refl.
Qed.

(** *** Visibility *)

Lemma set_fields_visible acts p s :
  let s' := set_actions acts (set_previewQuery p s) in
  id s' = id s ∧ type s' = type s ∧ stageIndex s' = stageIndex s ∧
  itemIndex s' = itemIndex s ∧ query s' = query s ∧ valid s' = valid s ∧
  active s' = active s ∧ visible s' = visible s ∧ testID s' = testID s.
Proof. by destruct s. Qed.

Lemma sameButActions_fields s s' :
  sameButActions s s' →
  id s' = id s ∧ type s' = type s ∧ stageIndex s' = stageIndex s ∧
  itemIndex s' = itemIndex s ∧ query s' = query s ∧ valid s' = valid s ∧
  active s' = active s ∧ visible s' = visible s ∧ testID s' = testID s ∧
  previewQuery s' = previewQuery s.
Proof. intros [acts ->]. by destruct s. Qed.

Lemma rawSteps_visible topQ stageQuery i isLast openSteps s :
  s ∈ rawSteps topQ stageQuery i isLast openSteps →
  visible s = valid s && (active s || isOpen openSteps (id s)).
Proof. intros (STEP & k & _ & ->)%rawSteps_elem. reflexivity. Qed.

Lemma getStageSteps_visible topQ stageQuery i isLast openSteps s :
  s ∈ steps (getStageSteps topQ stageQuery i isLast openSteps) →
  visible s = valid s && (active s || isOpen openSteps (id s)).
Proof.
  rewrite getStageSteps_steps.
  intros (s0 & acts & p & Hraw & ->)%keptSteps_raw.
  apply rawSteps_visible in Hraw.
  destruct (set_fields_visible acts p s0) as (-> & _ & _ & _ & _ & -> & -> & -> & _).
  done.
Qed.

(** C2.  Every step instance of a derivation pass (an instance of the raw
    list of a stage, a step that [getStageSteps] returns, a step that
    [getQuestionSteps] returns) has
    [visible = valid && (active || openSteps[id])]; hence every visible
    instance is valid, whatever the query and the force-open set. *)
Theorem visible_is_valid_and_shown question0 topQ stageQuery i isLast
    openSteps s :
  s ∈ rawSteps topQ stageQuery i isLast openSteps ∨
  s ∈ steps (getStageSteps topQ stageQuery i isLast openSteps) ∨
  s ∈ getQuestionSteps question0 openSteps →
  visible s = valid s && (active s || isOpen openSteps (id s)) ∧
  (visible s = true → valid s = true).
Proof.
  intros H.
  assert (visible s = valid s && (active s || isOpen openSteps (id s))) as Hv.
  { destruct H as [H|[H|H]].
    - by eapply rawSteps_visible.
    - by eapply getStageSteps_visible.
    - apply getQuestionSteps_elem in H as (j & q & s0 & _ & Hs0 & Hsame).
      apply getStageSteps_visible in Hs0.
      apply sameButActions_fields in Hsame
        as (-> & _ & _ & _ & _ & -> & -> & -> & _).
      done. }
  split; [done|]. rewrite Hv. by intros [? _]%andb_true_iff.
Qed.

(** *** Stage indices *)

Lemma getStep_stageIndex topQ stageQuery i n openSteps STEP itemIndex :
  let s := getStep topQ stageQuery i (bool_decide (i = n - 1)) openSteps
             STEP itemIndex in
  stageIndex s = expectedStageIndex i n (type s).
Proof.
  cbn. unfold getMLv2StageIndex, expectedStageIndex, MLV2_STEPS.
  destruct (bool_decide (i = n - 1)).
  - rewrite andb_true_r. apply (f_equal (λ b : bool, if b then _ else _)).
    apply bool_decide_ext.
    rewrite elem_of_cons, list_elem_of_singleton. tauto.
  - rewrite andb_false_r. by case_bool_decide.
Qed.

(** C5.  Over the stages that [getQuestionSteps] derives, every instance of
    the raw list of stage [i] carries the sentinel [-1] when it is a [sort]
    or [limit] instance and the stage is the last one, and the literal
    stage index otherwise; and every step that [getQuestionSteps] returns
    is such an instance, with that stage index. *)
Theorem sort_limit_stageIndex question0 openSteps :
  let stagedQueries := queries (stagedQuery question0) in
  let n := length stagedQueries in
  let topQ := getMLv2Query (question (rootQuery (Question_query question0))) in
  (∀ i stageQuery s,
     stagedQueries !! i = Some stageQuery →
     s ∈ rawSteps topQ stageQuery i (bool_decide (i = n - 1)) openSteps →
     stageIndex s = expectedStageIndex i n (type s)) ∧
  (∀ s, s ∈ getQuestionSteps question0 openSteps →
     ∃ i stageQuery s0,
       stagedQueries !! i = Some stageQuery ∧
       s0 ∈ rawSteps topQ stageQuery i (bool_decide (i = n - 1)) openSteps ∧
       id s = id s0 ∧ type s = type s0 ∧ itemIndex s = itemIndex s0 ∧
       stageIndex s = expectedStageIndex i n (type s)).
Proof.
  intros stagedQueries n topQ. split.
  - intros i q s _ (STEP & k & _ & ->)%rawSteps_elem.
    apply getStep_stageIndex.
  - intros s (i & q & s1 & Hi & Hs1 & Hsame)%getQuestionSteps_elem.
    rewrite getStageSteps_steps in Hs1.
    apply keptSteps_raw in Hs1 as (s0 & acts & p & Hraw & ->).
    exists i, q, s0. split; [done|]. split; [done|].
    apply sameButActions_fields in Hsame as (-> & -> & -> & -> & _).
    destruct (set_fields_visible acts p s0) as (-> & -> & -> & -> & _).
    do 3 (split; [done|]).
    apply rawSteps_elem in Hraw as (STEP & k & _ & ->).
    apply getStep_stageIndex.
Qed.

(** *** Identifiers *)

Lemma string_app_nil_r (a : string) : a +:+ "" = a.
Proof.
  induction a as [|c a IH]; [done|].
  change (String c a +:+ "") with (String c (a +:+ "")). by rewrite IH.
Qed.

Lemma string_app_assoc (a b c : string) : (a +:+ b) +:+ c = a +:+ b +:+ c.
Proof.
  induction a as [|x a IH]; [done|].
  change (String x ((a +:+ b) +:+ c) = String x (a +:+ b +:+ c)).
  by rewrite IH.
Qed.

(** C9.  The instance with [itemIndex] 0 gets the id [{stage}:{type}] and a
    test id that ends in [-0], the same two strings as the instance with
    no item index, while its [itemIndex] field stays 0; an instance with a
    positive [itemIndex] gets the suffix [:{itemIndex}] (and that index in
    its test id).  A catalog entry with [subSteps] keeps the literal stage
    index, so [{stage}] is its [stageIndex]. *)
Theorem first_item_has_no_suffix topQ stageQuery i isLast openSteps STEP k :
  0 < k →
  let step0 := getStep topQ stageQuery i isLast openSteps STEP (Some 0) in
  let stepNull := getStep topQ stageQuery i isLast openSteps STEP None in
  let stepK := getStep topQ stageQuery i isLast openSteps STEP (Some k) in
  id step0 = pretty i +:+ ":" +:+ STEP_type STEP ∧
  id step0 = id stepNull ∧
  testID step0 = "step-" +:+ STEP_type STEP +:+ "-" +:+ pretty i +:+ "-0" ∧
  testID step0 = testID stepNull ∧
  itemIndex step0 = Some 0 ∧
  itemIndex stepNull = None ∧
  id stepK = pretty i +:+ ":" +:+ STEP_type STEP +:+ ":" +:+ pretty k ∧
  testID stepK =
    "step-" +:+ STEP_type STEP +:+ "-" +:+ pretty i +:+ "-" +:+ pretty k ∧
  itemIndex stepK = Some k ∧
  (STEP ∈ STEPS → is_Some (STEP_subSteps STEP) →
   stageIndex step0 = Z.of_nat i ∧ stageIndex stepK = Z.of_nat i).
Proof.
  intros Hk. cbn -[String.append pretty].
  unfold getId, getTestId, isValidItemIndex.
  rewrite (bool_decide_eq_false_2 (0 < 0)) by lia.
  rewrite (bool_decide_eq_true_2 (0 < k)) by done.
  cbn -[String.append pretty].
  rewrite string_app_nil_r, !string_app_assoc.
  repeat (split; [reflexivity|]).
  intros HSTEP Hsub. unfold STEPS in HSTEP.
  repeat (apply elem_of_cons in HSTEP as [->|HSTEP]);
    try (by apply is_Some_None in Hsub);
    [|by apply elem_of_nil in HSTEP].
  unfold getMLv2StageIndex. by destruct isLast.
Qed.

(** *** Validity of sort and limit *)

(** C10.  A [sort] or [limit] instance of a stage is valid exactly when the
    stage has data, has no aggregations or has a breakout, and has no
    source query or has a clause of its own; so on a stage that has a
    source query and no clause both are invalid. *)
Theorem sort_limit_valid topQ stageQuery i isLast openSteps s :
  s ∈ rawSteps topQ stageQuery i isLast openSteps →
  type s = "sort" ∨ type s = "limit" →
  valid s =
    hasData stageQuery &&
    (negb (hasAggregations stageQuery) || hasBreakouts stageQuery) &&
    (negb (bool_decide (is_Some (sourceQuery stageQuery))) ||
     hasAnyClauses stageQuery) ∧
  (is_Some (sourceQuery stageQuery) → hasAnyClauses stageQuery = false →
   valid s = false).
Proof.
  intros (STEP & k & HSTEP & ->)%rawSteps_elem Hty.
  assert (STEP = sortStep ∨ STEP = limitStep) as HS.
  { unfold STEPS in HSTEP.
    repeat (apply elem_of_cons in HSTEP as [->|HSTEP]);
      try (by left); try (by right);
      try (by apply elem_of_nil in HSTEP);
      by destruct Hty. }
  assert (valid (getStep topQ stageQuery i isLast openSteps STEP k) =
    hasData stageQuery &&
    (negb (hasAggregations stageQuery) || hasBreakouts stageQuery) &&
    (negb (bool_decide (is_Some (sourceQuery stageQuery))) ||
     hasAnyClauses stageQuery)) as Hv by (by destruct HS as [-> | ->]).
  split; [done|]. intros Hsrc Hcl. rewrite Hv, Hcl.
  rewrite (bool_decide_eq_true_2 _ Hsrc). apply andb_false_r.
Qed.

(** *** Preview queries *)

(** C3.  A step that [getStageSteps] returns is a visible instance of the
    raw list; its [previewQuery] is [null] when it is inactive, and when it
    is active it is the stage query with the revert of every later
    instance that defines a revert applied, the last one first. *)
Theorem previewQuery_of_visible topQ stageQuery i isLast openSteps s' :
  s' ∈ steps (getStageSteps topQ stageQuery i isLast openSteps) →
  ∃ earlier s later,
    rawSteps topQ stageQuery i isLast openSteps = earlier ++ s :: later ∧
    id s' = id s ∧ type s' = type s ∧ itemIndex s' = itemIndex s ∧
    visible s' = true ∧
    (active s' = false → previewQuery s' = None) ∧
    (active s' = true → previewQuery s' = revertChain later stageQuery).
Proof.
  rewrite getStageSteps_steps.
  intros (l1 & s & l2 & Hraw & Hv & ->)%keptSteps_elem.
  exists l1, s, l2. split; [done|].
  destruct (set_fields_visible (pendingActions l2)
              (if active s then revertChain l2 stageQuery else None) s)
    as (-> & -> & _ & -> & _ & _ & -> & -> & _).
  do 4 (split; [done|]).
  destruct s; cbn in *. split; intros ->; reflexivity.
Qed.

(** Conversely every visible instance of the raw list is returned, with
    that preview. *)
Lemma visible_instance_returned topQ stageQuery i isLast openSteps
    earlier s later :
  rawSteps topQ stageQuery i isLast openSteps = earlier ++ s :: later →
  visible s = true →
  ∃ s', s' ∈ steps (getStageSteps topQ stageQuery i isLast openSteps) ∧
        sameButActions (set_previewQuery
          (if active s then revertChain later stageQuery else None) s) s'.
Proof.
  intros Hraw Hv. rewrite getStageSteps_steps, Hraw.
  eexists. split; [by apply keptSteps_intro|]. by eexists.
Qed.

(** *** Join instances *)

Lemma keptSteps_filter_type stageQuery (t : string) raw :
  itemIndex <$> filter (λ s, type s = t) (keptSteps stageQuery raw) =
  itemIndex <$>
    filter (λ s, visible s = true) (filter (λ s, type s = t) raw).
Proof.
  induction raw as [|s raw IH]; [done|].
  cbn [keptSteps]. rewrite (filter_cons (λ s, type s = t) s raw).
  destruct (visible s) eqn:Hv.
  - rewrite filter_cons.
    destruct (set_fields_visible (pendingActions raw)
      (if active s then revertChain raw stageQuery else None) s)
      as (_ & Hty & _ & Hii & _).
    cbn zeta in Hty, Hii. rewrite Hty.
    destruct (decide (type s = t)); [|done].
    rewrite filter_cons_True by done. cbn [fmap list_fmap].
    by rewrite Hii, IH.
  - destruct (decide (type s = t)); [|done].
    rewrite filter_cons_False by (rewrite Hv; done). done.
Qed.

(** C7.  On a stage with two joins and a database that supports joins,
    the raw list holds exactly three join instances: item 0 and item 1,
    active, and the placeholder item 2, inactive.  (Of these
    [getStageSteps] returns items 0 and 1, and the placeholder when its id
    is forced open.) *)
Theorem two_joins_three_instances topQ stageQuery i isLast openSteps db :
  length (joins stageQuery) = 2 →
  hasData stageQuery = true →
  database stageQuery = Some db →
  hasFeature db "join" = true →
  (λ s, (itemIndex s, valid s, active s)) <$>
    filter (λ s, type s = "join")
      (rawSteps topQ stageQuery i isLast openSteps)
  = [(Some 0, true, true); (Some 1, true, true); (Some 2, true, false)] ∧
  itemIndex <$>
    filter (λ s, type s = "join")
      (steps (getStageSteps topQ stageQuery i isLast openSteps))
  = [Some 0; Some 1] ++
    (if isOpen openSteps (getId i joinStep (Some 2)) then [Some 2] else []).
Proof.
  intros Hlen Hdata Hdb Hfeat.
  assert (filter (λ s, type s = "join")
            (rawSteps topQ stageQuery i isLast openSteps) =
          (λ k, getStep topQ stageQuery i isLast openSteps joinStep (Some k))
            <$> [0; 1; 2]) as Hjoins.
  { unfold rawSteps, STEPS. cbn [map concat STEP_subSteps dataStep joinStep
      expressionStep filterStep summarizeStep sortStep limitStep app].
    rewrite Hlen. cbn [Nat.add seq map app].
    repeat (rewrite filter_cons_True by reflexivity ||
            rewrite filter_cons_False by discriminate).
    reflexivity. }
  split.
  - rewrite Hjoins. cbn. rewrite Hlen, Hdata, Hdb, Hfeat. reflexivity.
  - rewrite getStageSteps_steps, keptSteps_filter_type, Hjoins.
    cbn [fmap list_fmap].
    assert (∀ k, visible (getStep topQ stageQuery i isLast openSteps
                            joinStep (Some k)) =
                 bool_decide (k < 2) ||
                 isOpen openSteps (getId i joinStep (Some k))) as Hvis.
    { intros k. cbn. by rewrite Hlen, Hdata, Hdb, Hfeat. }
    rewrite !filter_cons, filter_nil, !Hvis. cbn [bool_decide orb].
    rewrite (bool_decide_eq_true_2 (0 < 2)) by lia.
    rewrite (bool_decide_eq_true_2 (1 < 2)) by lia.
    rewrite (bool_decide_eq_false_2 (2 < 2)) by lia.
    cbn [orb].
    destruct (isOpen openSteps (getId i joinStep (Some 2))); reflexivity.
Qed.

(** *** The clean of the join step *)

(** C8 (as amended).  On a join that is invalid, has no gaps and whose
    cleaned form is still invalid, the join step's [clean] returns the
    query with that join removed; a join that has gaps is left in place.
    The join entry is the only one whose [clean] removes a clause by
    itself.  The [clean] of the other entries is, entry by entry: the
    query unchanged for [data] and [limit], and for [expression],
    [filter], [summarize] and [sort] the result of the collaborator's
    [cleanExpressions], [cleanFilters], [cleanBreakouts] followed by
    [cleanAggregations], and [cleanSorts], each of which can drop clauses
    of its own kind. *)
Theorem join_clean_removes_unrepairable query index join topQ stageIndex :
  joins query !! index = Some join →
  Join_isValid join = false →
  Join_isValid (Join_clean join) = false →
  (Join_hasGaps join = false →
   STEP_clean joinStep query (Some index) topQ stageIndex =
   removeJoin query (Some index)) ∧
  (Join_hasGaps join = true →
   STEP_clean joinStep query (Some index) topQ stageIndex = query) ∧
  (∀ q k,
     (λ STEP, (STEP_type STEP, STEP_clean STEP q k topQ stageIndex)) <$> STEPS =
     [("data", q);
      ("join", STEP_clean joinStep q k topQ stageIndex);
      ("expression", cleanExpressions q);
      ("filter", cleanFilters q);
      ("summarize", cleanAggregations (cleanBreakouts q));
      ("sort", cleanSorts q);
      ("limit", q)]).
Proof.
  intros Hj Hinv Hcl. cbn [STEP_clean joinStep].
  rewrite Hj, Hinv, Hcl. cbn [negb orb].
  split; [by intros ->|]. split; [by intros ->|].
  intros q k. reflexivity.
Qed.

(** *** A query that holds data only *)

Lemma isOpen_empty (x : string) : isOpen ∅ x = false.
Proof. unfold isOpen. by rewrite lookup_empty. Qed.

(** C6 (as amended).  For a single-stage structured query with data and no
    join, expression, filter, aggregation, breakout, sort or limit, and
    nothing forced open, [getQuestionSteps] returns exactly one step, the
    visible [data] step; no action is left unattached, and the [data] step
    carries one action per hidden valid step: [filter], [summarize],
    [sort] and [limit], preceded by [join] and [expression] when the
    database supports them. *)
Theorem plain_query_single_data_step question0 stageQuery :
  let topQ := getMLv2Query (question (rootQuery (Question_query question0))) in
  let joinOk := match database stageQuery with
                | Some db => hasFeature db "join"
                | None => false
                end in
  let expressionOk := match database stageQuery with
                      | Some db => supportsExpressions db
                      | None => false
                      end in
  isStructured question0 = true →
  queries (stagedQuery question0) = [stageQuery] →
  sourceQuery stageQuery = None →
  hasData stageQuery = true →
  joins stageQuery = [] →
  hasExpressions stageQuery = false →
  hasFilters stageQuery = false →
  hasAggregations stageQuery = false →
  hasBreakouts stageQuery = false →
  hasSorts stageQuery = false →
  Lib_hasLimit topQ (-1) = false →
  ∃ s,
    getQuestionSteps question0 ∅ = [s] ∧
    type s = "data" ∧ id s = "0:data" ∧ visible s = true ∧
    stage_actions (getStageSteps topQ stageQuery 0 true ∅) = [] ∧
    action_type <$> actions s =
      (if joinOk then ["join"] else []) ++
      (if expressionOk then ["expression"] else []) ++
      ["filter"; "summarize"; "sort"; "limit"].
Proof.
  intros topQ joinOk expressionOk Hstr Hq Hsrc Hdata Hjoins Hexpr Hfil Hagg
    Hbrk Hsort Hlim.
  unfold getQuestionSteps. rewrite Hstr, Hq. fold topQ.
  cbn [imap foldl length questionLoopBody Nat.sub].
  rewrite bool_decide_eq_true_2 by done.
  unfold pushActions. cbn [length app].
  rewrite getStageSteps_steps, getStageSteps_actions.
  unfold rawSteps, STEPS. cbn [map concat STEP_subSteps dataStep joinStep
    expressionStep filterStep summarizeStep sortStep limitStep app].
  rewrite Hjoins. cbn [length Nat.add seq map app].
  cbn -[String.append pretty isOpen].
  rewrite !isOpen_empty, Hsrc, Hdata, Hexpr, Hfil, Hagg, Hbrk, Hsort, Hjoins.
  rewrite (bool_decide_eq_false_2 (is_Some None)) by apply is_Some_None.
  change (getMLv2StageIndex 0 "limit" true) with (-1)%Z.
  fold topQ. rewrite Hlim.
  cbn -[String.append pretty].
  fold joinOk expressionOk.
  rewrite (bool_decide_eq_false_2 (0 < 0)) by lia.
  clearbody joinOk expressionOk.
  destruct joinOk, expressionOk; cbn -[String.append pretty];
    (eexists; split; [reflexivity|]);
    cbn -[String.append pretty]; rewrite ?Hsrc;
    rewrite ?(bool_decide_eq_false_2 (is_Some None)) by apply is_Some_None;
    repeat split; reflexivity.
Qed.

(** *** Revert chains *)

Lemma revertChain_None later :
  foldr (λ step acc,
           match revert step with
           | Some r => acc ≫= r
           | None => acc
           end) None later = None.
Proof. induction later as [|s l IH]; [done|]. cbn. rewrite IH. by destruct (revert s). Qed.

Lemma revertChain_app l1 l2 q :
  revertChain (l1 ++ l2) q = revertChain l2 q ≫= revertChain l1.
Proof.
  unfold revertChain. rewrite foldr_app.
  destruct (foldr _ (Some q) l2) as [p|]; [done|]. apply revertChain_None.
Qed.

Lemma revertChain_cons s l q :
  revertChain (s :: l) q =
  revertChain l q ≫= λ p, match revert s with Some r => r p | None => Some p end.
Proof. cbn. fold (revertChain l q). destruct (revert s), (revertChain l q); done. Qed.

Lemma revertChain_keptSteps q0 raw q :
  revertChain (keptSteps q0 raw) q =
  revertChain (filter (λ s, visible s = true) raw) q.
Proof.
  induction raw as [|s raw IH]; [done|].
  cbn [keptSteps]. rewrite filter_cons.
  destruct (visible s) eqn:Hv.
  - rewrite decide_True by done. rewrite !revertChain_cons, IH. by destruct s.
  - rewrite decide_False by done. done.
Qed.

Lemma hidden_inactive topQ stageQuery i isLast openSteps s :
  forallb (λ s, implb (active s) (valid s))
    (tail (rawSteps topQ stageQuery i isLast openSteps)) = true →
  s ∈ tail (rawSteps topQ stageQuery i isLast openSteps) →
  visible s = false → active s = false.
Proof.
  intros Hall Hs Hv. rewrite forallb_forall in Hall.
  specialize (Hall s (proj1 (list_elem_of_In _ _) Hs)).
  assert (s ∈ rawSteps topQ stageQuery i isLast openSteps) as Hraw.
  { destruct (rawSteps topQ stageQuery i isLast openSteps); [done|].
    apply elem_of_cons. by right. }
  rewrite (rawSteps_visible _ _ _ _ _ _ Hraw) in Hv.
  destruct (active s), (valid s); done.
Qed.
End StepsFacts.

(** ** Properties that rest on the list model of the collaborator *)

Section ModelFacts.
Import Model.

(** *** The stage a stage index addresses *)

Lemma prefixes_length db below rest : length (prefixes db below rest) = length rest.
Proof. revert below. induction rest as [|s rest IH]; intros below; cbn; [done|]. by rewrite IH. Qed.

Lemma prefixes_lookup db below rest n :
  prefixes db below rest !! n =
  (λ s, mkQuery db (below ++ take n rest) s) <$> rest !! n.
Proof.
  revert below n. induction rest as [|s rest IH]; intros below n; [by destruct n|].
  destruct n as [|n]; cbn.
  - by rewrite app_nil_r.
  - rewrite IH. destruct (rest !! n); cbn; [|done].
    by rewrite <- app_assoc.
Qed.

(** Rebuilding a query from a non-empty stage list. *)
Lemma allStages_rebuild db (stages : list MStage) q :
  stages ≠ [] →
  allStages (match reverse stages with
             | [] => q
             | top :: below => mkQuery db (reverse below) top
             end) = stages ∧
  q_database (match reverse stages with
             | [] => q
             | top :: below => mkQuery db (reverse below) top
             end) = db.
Proof.
  intros Hne. destruct (reverse stages) as [|top below] eqn:E.
  - apply (f_equal reverse) in E. rewrite reverse_involutive in E. done.
  - unfold allStages. cbn. rewrite <- reverse_cons, <- E. by rewrite reverse_involutive.
Qed.

Lemma allStages_ne q : allStages q ≠ [].
Proof. unfold allStages. by destruct (q_sources (q_inner q)). Qed.

Lemma stageNumber_safe top si n :
  stageNumber top si = Some n →
  n < length (allStages top) ∧
  (if bool_decide (si = -1)%Z
   then (Z.of_nat (length (allStages top)) - 1)%Z else si) = Z.of_nat n.
Proof.
  unfold stageNumber, allStages. rewrite length_app. cbn.
  repeat case_bool_decide; intros [= <-]; split; lia.
Qed.

Lemma stageAddressed_inv top si q :
  stageAddressed top si = Some q →
  ∃ n s, stageNumber top si = Some n ∧ allStages top !! n = Some s ∧
         q = mkQuery (q_database top) (take n (allStages top)) s.
Proof.
  unfold stageAddressed. destruct (stageNumber top si) as [n|]; [|done].
  cbn. rewrite prefixes_lookup.
  destruct (allStages top !! n) as [s|] eqn:E; cbn; [|done]. intros [= <-]. by exists n, s.
Qed.

Lemma limit_active_addressed top si q :
  stageAddressed top si = Some q →
  Lib_hasLimit top si = bool_decide (is_Some (stage_limit (thisStage q))).
Proof.
  intros (n & s & Hn & Hs & ->)%stageAddressed_inv.
  cbn. unfold m_hasLimit. by rewrite Hn, Hs.
Qed.

Lemma limit_revert_addressed top si q legacyQuery itemIndex :
  stageAddressed top si = Some q →
  (STEP_revert limitStep ≫= λ r, r legacyQuery itemIndex top si) =
  Some (withStage q (setLimit None (thisStage q))).
Proof.
  intros (n & s & Hn & Hs & ->)%stageAddressed_inv.
  cbn. unfold m_limit. rewrite Hn.
  destruct (stageNumber_safe _ _ _ Hn) as [Hlt Hsafe].
  set (stages := alter (setLimit None) n (allStages top)).
  assert (stages ≠ []) as Hne.
  { intros E. apply (f_equal length) in E. unfold stages in E.
    rewrite length_alter in E. cbn in E. lia. }
  destruct (allStages_rebuild (q_database top) stages top Hne) as [-> ->].
  rewrite prefixes_length. unfold stages at 1 2. rewrite length_alter, Hsafe.
  unfold jsIndex. rewrite bool_decide_eq_false_2 by lia.
  rewrite Nat2Z.id, prefixes_lookup. unfold stages.
  rewrite list_lookup_alter_eq, Hs. cbn.
  by rewrite take_alter_ge.
Qed.

(** *** Reverting the visible steps of a stage *)

Lemma chain_step (s : NotebookStep) l q p p' :
  revertChain (filter (λ s, visible s = true) l) q = Some p →
  (visible s = true →
   match revert s with Some r => r p | None => Some p end = Some p') →
  (visible s = false → p = p') →
  revertChain (filter (λ s, visible s = true) (s :: l)) q = Some p'.
Proof.
  intros Hl Hv Hh. rewrite filter_cons. destruct (visible s) eqn:E.
  - rewrite decide_True by done. rewrite revertChain_cons, Hl. cbn. by apply Hv.
  - rewrite decide_False by done. rewrite Hl. f_equal. by apply Hh.
Qed.

Lemma nonEmpty_false {A} (l : list A) : nonEmpty l = false → l = [].
Proof. by destruct l. Qed.

Lemma delete_past_end {A} (l : list A) n : length l ≤ n → delete n l = l.
Proof.
  intros H. rewrite delete_take_drop, take_ge, drop_ge by lia.
  apply app_nil_r.
Qed.

Lemma joins_chain (topQ stageQuery : MQuery) (i : nat) (isLast : bool)
    (openSteps : gmap string bool) m : ∀ p : MQuery,
  length (stage_joins (thisStage p)) = m →
  revertChain
    ((λ k, getStep (L:=lib) topQ stageQuery i isLast openSteps joinStep
             (Some k)) <$> seq 0 m) p =
  Some (withStage p (setJoins [] (thisStage p))).
Proof.
  induction m as [|m IH]; intros p Hlen.
  - cbn. apply nil_length_inv in Hlen.
    destruct p as [db [src st]]. destruct st. cbn in *. by subst.
  - rewrite seq_S, fmap_app, revertChain_app. cbn [fmap list_fmap Nat.add].
    rewrite revertChain_cons. cbn [revertChain foldr mbind option_bind].
    cbn. rewrite IH.
    + done.
    + cbn. rewrite length_delete; [lia|]. apply lookup_lt_is_Some. lia.
Qed.

Lemma filter_all {A} (P : A → Prop) `{!∀ x, Decision (P x)} (l : list A) :
  (∀ x, x ∈ l → P x) → filter P l = l.
Proof.
  induction l as [|x l IH]; intros Hl; [done|].
  rewrite filter_cons_True by (apply Hl, elem_of_cons; by left).
  f_equal. apply IH. intros y Hy. apply Hl, elem_of_cons. by right.
Qed.

Lemma withStage_this q : withStage q (thisStage q) = q.
Proof. by destruct q as [db [src st]]. Qed.

Lemma setJoins_id st : setJoins (stage_joins st) st = st.
Proof. by destruct st. Qed.
Lemma setExpressions_nil_id st :
  nonEmpty (stage_expressions st) = false → setExpressions [] st = st.
Proof. intros H%nonEmpty_false. destruct st; cbn in *. by subst. Qed.
Lemma setFilters_nil_id st :
  nonEmpty (stage_filters st) = false → setFilters [] st = st.
Proof. intros H%nonEmpty_false. destruct st; cbn in *. by subst. Qed.
Lemma setSummary_nil_id st :
  nonEmpty (stage_aggregations st) || nonEmpty (stage_breakouts st) = false →
  setAggregations [] (setBreakouts [] st) = st.
Proof.
  intros [H1%nonEmpty_false H2%nonEmpty_false]%orb_false_iff.
  destruct st; cbn in *. by subst.
Qed.
Lemma setSorts_nil_id st :
  nonEmpty (stage_sorts st) = false → setSorts [] st = st.
Proof. intros H%nonEmpty_false. destruct st; cbn in *. by subst. Qed.
Lemma setLimit_None_id st :
  bool_decide (is_Some (stage_limit st)) = false → setLimit None st = st.
Proof.
  intros H%bool_decide_eq_false. destruct st as [? ? ? ? ? ? ? [l|]]; cbn in *.
  - destruct H. by eexists.
  - done.
Qed.

(** C4 (as amended).  Take a stage, the first or a later one, in which
    every instance after the data instance that holds content is valid (so
    that no clause sits behind a hidden step), and whose query is the stage
    that the limit step's stage index addresses in the top-level query.
    Reverting every step that [getStageSteps] returns for it, from the last
    to the first, each result the base of the next, yields the stage's
    query with only its data: its table, or the stages below it, and no
    clause.  The data instance has no revert, so the stage need not show
    it. *)
Theorem reverting_visible_steps_gives_data_only topQ stageQuery i isLast
    openSteps :
  stageAddressed topQ (getMLv2StageIndex i "limit" isLast) = Some stageQuery →
  forallb (λ s, implb (active s) (valid s))
    (tail (rawSteps (L:=lib) topQ stageQuery i isLast openSteps)) = true →
  revertChain
    (steps (getStageSteps (L:=lib) topQ stageQuery i isLast openSteps))
    stageQuery
  = Some (dataOnly stageQuery).
Proof.
  intros HB HA.
  rewrite getStageSteps_steps, revertChain_keptSteps.
  pose proof (λ s, hidden_inactive _ _ _ _ _ s HA) as Hhid. clear HA.
  pose proof (limit_active_addressed _ _ _ HB) as Hlimact.
  revert Hhid. unfold rawSteps, STEPS.
  cbn [map concat STEP_subSteps dataStep joinStep expressionStep filterStep
       summarizeStep sortStep limitStep app tail].
  rewrite Nat.add_1_r, seq_S. cbn [Nat.add]. rewrite map_app. cbn [map].
  change (map ?f ?l) with (f <$> l).
  set (st := thisStage stageQuery).
  set (n := length (@joins lib stageQuery)).
  set (joinI := λ k, getStep (L:=lib) topQ stageQuery i isLast openSteps joinStep (Some k)).
  change (getStep (L:=lib) topQ stageQuery i isLast openSteps joinStep (Some n))
    with (joinI n).
  set (dataI := getStep (L:=lib) topQ stageQuery i isLast openSteps dataStep None).
  set (exprI := getStep (L:=lib) topQ stageQuery i isLast openSteps expressionStep None).
  set (filterI := getStep (L:=lib) topQ stageQuery i isLast openSteps filterStep None).
  set (summI := getStep (L:=lib) topQ stageQuery i isLast openSteps summarizeStep None).
  set (sortI := getStep (L:=lib) topQ stageQuery i isLast openSteps sortStep None).
  set (limitI := getStep (L:=lib) topQ stageQuery i isLast openSteps limitStep None).
  intros Hhid.
  assert (Hjoin : ∀ k, k ≤ n → visible (joinI k) = false → active (joinI k) = false).
  { intros k Hk. apply Hhid.
    apply elem_of_app. left. apply elem_of_app.
    destruct (decide (k = n)) as [->|].
    - right. apply list_elem_of_singleton. done.
    - left. apply list_elem_of_fmap_2. apply elem_of_seq. lia. }
  assert (Htl : ∀ k s, [exprI; filterI; summI; sortI; limitI] !! k = Some s →
                visible s = false → active s = false).
  { intros k s Hk. apply Hhid.
    apply elem_of_app. right. by eapply list_elem_of_lookup_2. }
  pose proof (Htl 0 exprI eq_refl) as Hexpr.
  pose proof (Htl 1 filterI eq_refl) as Hfilter.
  pose proof (Htl 2 summI eq_refl) as Hsumm.
  pose proof (Htl 3 sortI eq_refl) as Hsort.
  pose proof (Htl 4 limitI eq_refl) as Hlimit.
  clear Htl.
  clear Hhid.
  set (p5 := withStage stageQuery (setLimit None st)).
  set (p4 := withStage stageQuery (setSorts [] (setLimit None st))).
  set (p3 := withStage stageQuery
               (setAggregations [] (setBreakouts []
                  (setSorts [] (setLimit None st))))).
  set (p2 := withStage stageQuery
               (setFilters [] (setAggregations [] (setBreakouts []
                  (setSorts [] (setLimit None st)))))).
  set (p1 := withStage stageQuery
               (setExpressions [] (setFilters [] (setAggregations []
                  (setBreakouts [] (setSorts [] (setLimit None st))))))).
  assert (revertChain (filter (λ s, visible s = true)
            [exprI; filterI; summI; sortI; limitI]) stageQuery = Some p1)
    as Htail.
  { apply (chain_step _ _ _ p2).
    apply (chain_step _ _ _ p3).
    apply (chain_step _ _ _ p4).
    apply (chain_step _ _ _ p5).
    apply (chain_step _ _ _ stageQuery).
    - reflexivity.
    - intros _. apply (limit_revert_addressed _ _ _ stageQuery None HB).
    - intros Hv%Hlimit.
      change (active limitI) with
        (@Lib_hasLimit lib topQ (getMLv2StageIndex i "limit" isLast)) in Hv.
      rewrite Hlimact in Hv.
      unfold p5. rewrite setLimit_None_id by done. symmetry. apply withStage_this.
    - intros _. reflexivity.
    - intros Hv%Hsort. unfold p4, p5. f_equal. symmetry.
      by apply setSorts_nil_id.
    - intros _.
      change (Some (if nonEmpty (stage_aggregations st) ||
                       nonEmpty (stage_breakouts st)
                    then p3 else p4) = Some p3).
      destruct (nonEmpty (stage_aggregations st) ||
                nonEmpty (stage_breakouts st)) eqn:E; [reflexivity|].
      unfold p3, p4. do 2 f_equal. symmetry. by apply setSummary_nil_id.
    - intros Hv%Hsumm. unfold p3, p4. f_equal. symmetry.
      by apply setSummary_nil_id.
    - intros _. reflexivity.
    - intros Hv%Hfilter. unfold p2, p3. f_equal. symmetry.
      by apply setFilters_nil_id.
    - intros _. reflexivity.
    - intros Hv%Hexpr. unfold p1, p2. f_equal. symmetry.
      by apply setExpressions_nil_id. }
  assert (length (stage_joins (thisStage p1)) = n) as Hlen by reflexivity.
  assert (filter (λ s, visible s = true) (joinI <$> seq 0 n) =
          joinI <$> seq 0 n) as Hall.
  { apply filter_all. intros s (k & -> & Hk%elem_of_seq)%list_elem_of_fmap.
    destruct (visible (joinI k)) eqn:Hv; [done|].
    apply Hjoin in Hv; [|lia].
    change (bool_decide (k < n) = false) in Hv.
    rewrite bool_decide_eq_true_2 in Hv by lia. done. }
  assert (withStage p1 (setJoins [] (thisStage p1)) = dataOnly stageQuery)
    as Hfinal by (by destruct stageQuery as [db [src []]]).
  apply (chain_step _ _ _ (withStage p1 (setJoins [] (thisStage p1)))).
  - rewrite filter_app, revertChain_app, Htail. cbn [mbind option_bind].
    rewrite filter_app, revertChain_app, Hall.
    assert (revertChain (filter (λ s, visible s = true) [joinI n]) p1 = Some p1)
      as ->.
    { apply (chain_step _ _ _ p1); [reflexivity| |done].
      intros _.
      change (Some (withStage p1
                (setJoins (delete n (stage_joins (thisStage p1)))
                   (thisStage p1))) = Some p1).
      rewrite delete_past_end by lia.
      by rewrite setJoins_id, withStage_this. }
    cbn [mbind option_bind]. by apply joins_chain.
  - intros _. cbn [revert dataI getStep STEP_revert dataStep]. by rewrite Hfinal.
  - intros _. done.
Qed.

End ModelFacts.

(** ** The theorems at concrete questions of the list model *)

Section ConcreteQuestions.
Import Model Examples.

Lemma visible_is_valid_and_shown_witness :
  match getQuestionSteps (L:=lib) filterSortLimitQuestion ∅ !! 1 with
  | Some s =>
      visible s = valid s && (active s || isOpen ∅ (id s)) ∧
      (visible s = true → valid s = true)
  | None => False
  end.
Proof.
  destruct (getQuestionSteps (L:=lib) filterSortLimitQuestion ∅ !! 1)
    as [s|] eqn:E.
  - apply (visible_is_valid_and_shown (L:=lib) filterSortLimitQuestion
             filterSortLimitQuery filterSortLimitQuery 0 true ∅ s).
    right; right. by eapply list_elem_of_lookup_2.
  - vm_compute in E. discriminate E.
Defined.

(** The stage indices of a two-stage question: the sort step of the last
    stage carries the sentinel. *)
Example two_stage_indices :
  (λ s, (id s, stageIndex s)) <$>
    getQuestionSteps (L:=lib) twoStageQuestion ∅
  = [("0:data", 0%Z); ("0:summarize", 0%Z); ("1:filter", 1%Z);
     ("1:sort", (-1)%Z)].
Proof. vm_compute. reflexivity. Qed.

Lemma first_item_has_no_suffix_witness :
  let step0 := getStep (L:=lib) twoJoinsQuery twoJoinsQuery 0 true ∅
                 joinStep (Some 0) in
  let stepNull := getStep (L:=lib) twoJoinsQuery twoJoinsQuery 0 true ∅
                    joinStep None in
  let stepK := getStep (L:=lib) twoJoinsQuery twoJoinsQuery 0 true ∅
                 joinStep (Some 1) in
  0 < 1 ∧
  id step0 = "0:join" ∧ id stepNull = "0:join" ∧
  testID step0 = "step-join-0-0" ∧ testID stepNull = "step-join-0-0" ∧
  itemIndex step0 = Some 0 ∧
  id stepK = "0:join:1" ∧ testID stepK = "step-join-0-1".
Proof.
  pose proof (first_item_has_no_suffix (L:=lib) twoJoinsQuery twoJoinsQuery
                0 true ∅ joinStep 1 ltac:(lia)) as H.
  cbv zeta in H.
  destruct H as (H1 & H2 & H3 & H4 & H5 & _ & H7 & H8 & _).
  split; [lia|].
  rewrite <- H2, <- H4, H1, H3, H5, H7, H8.
  repeat split; reflexivity.
Defined.

(** The stage that [nest] appends to a grouped count: it has a source
    query and no clause, and its [sort] instance is invalid. *)
Lemma sort_limit_valid_witness :
  let nested := @nest lib
                  (mkQuery (Some sampleDb) []
                     (setBreakouts [clause 5]
                        (setAggregations [clause 4] tableStage))) in
  match rawSteps (L:=lib) nested nested 1 true ∅ !! 5 with
  | Some s => type s = "sort" ∧ valid s = false
  | None => False
  end.
Proof.
  intros nested.
  destruct (rawSteps (L:=lib) nested nested 1 true ∅ !! 5) as [s|] eqn:E.
  - assert (type s = "sort") as Hty.
    { vm_compute in E. injection E as <-. reflexivity. }
    split; [done|].
    destruct (sort_limit_valid (L:=lib) nested nested 1 true ∅ s) as [_ H].
    + by eapply list_elem_of_lookup_2.
    + by left.
    + apply H; [vm_compute; by eexists|reflexivity].
  - vm_compute in E. discriminate E.
Defined.

Lemma previewQuery_of_visible_witness :
  match steps (getStageSteps (L:=lib) filterSortLimitQuery
                 filterSortLimitQuery 0 true ∅) !! 1 with
  | Some s' =>
      ∃ earlier s later,
        rawSteps (L:=lib) filterSortLimitQuery filterSortLimitQuery 0 true ∅
          = earlier ++ s :: later ∧
        id s' = id s ∧ type s' = type s ∧ itemIndex s' = itemIndex s ∧
        visible s' = true ∧
        (active s' = false → previewQuery s' = None) ∧
        (active s' = true →
         previewQuery s' = revertChain later filterSortLimitQuery)
  | None => False
  end.
Proof.
  destruct (steps (getStageSteps (L:=lib) filterSortLimitQuery
                     filterSortLimitQuery 0 true ∅) !! 1) as [s'|] eqn:E.
  - apply (previewQuery_of_visible (L:=lib)).
    by eapply list_elem_of_lookup_2.
  - vm_compute in E. discriminate E.
Defined.

(** The preview of the filter step of that question: the sort and the
    limit are reverted, the filter is kept. *)
Example previewQuery_filter_step :
  previewQuery <$>
    steps (getStageSteps (L:=lib) filterSortLimitQuery filterSortLimitQuery
             0 true ∅) !! 1
  = Some (Some (mkQuery (Some sampleDb) [] (setFilters [clause 2] tableStage))).
Proof. vm_compute. reflexivity. Qed.

Lemma plain_query_single_data_step_witness :
  ∃ s,
    getQuestionSteps (L:=lib) plainQuestion ∅ = [s] ∧
    type s = "data" ∧ id s = "0:data" ∧ visible s = true ∧
    stage_actions (getStageSteps (L:=lib) plainQuery plainQuery 0 true ∅) = [] ∧
    action_type <$> actions s =
      ["join"; "expression"; "filter"; "summarize"; "sort"; "limit"].
Proof.
  exact (plain_query_single_data_step (L:=lib) plainQuestion plainQuery
           eq_refl eq_refl eq_refl eq_refl eq_refl eq_refl eq_refl eq_refl
           eq_refl eq_refl eq_refl).
Defined.

(** C6 as stated fails: the question has one stage, data and no clause,
    nothing is forced open, and yet no returned [data] step is without
    actions. *)
Lemma plain_query_data_step_has_actions :
  @queries lib (stagedQuery (L:=lib) plainQuestion) = [plainQuery] ∧
  hasData plainQuery = true ∧ hasAnyClauses plainQuery = false ∧
  ¬ ∃ s, getQuestionSteps (L:=lib) plainQuestion ∅ = [s] ∧
         type s = "data" ∧ visible s = true ∧ actions s = [].
Proof.
  split; [reflexivity|]. split; [reflexivity|]. split; [reflexivity|].
  intros (s & Hs & _ & _ & Hacts).
  vm_compute in Hs. injection Hs as <-. discriminate Hacts.
Qed.

Lemma two_joins_three_instances_witness :
  (λ s, (itemIndex s, valid s, active s)) <$>
    filter (λ s, type s = "join")
      (rawSteps (L:=lib) twoJoinsQuery twoJoinsQuery 0 true ∅)
  = [(Some 0, true, true); (Some 1, true, true); (Some 2, true, false)] ∧
  itemIndex <$>
    filter (λ s, type s = "join")
      (steps (getStageSteps (L:=lib) twoJoinsQuery twoJoinsQuery 0 true ∅))
  = [Some 0; Some 1].
Proof.
  exact (two_joins_three_instances (L:=lib) twoJoinsQuery twoJoinsQuery 0
           true ∅ sampleDb eq_refl eq_refl eq_refl eq_refl).
Defined.

Lemma join_clean_removes_unrepairable_witness :
  joins brokenJoinsQuery !! 1 = Some (brokenJoin 8) ∧
  STEP_clean joinStep brokenJoinsQuery (Some 1) brokenJoinsQuery 0%Z =
    removeJoin brokenJoinsQuery (Some 1) ∧
  joins (STEP_clean joinStep brokenJoinsQuery (Some 1) brokenJoinsQuery 0%Z) =
    [goodJoin 7; brokenJoin 9].
Proof.
  split; [reflexivity|].
  destruct (join_clean_removes_unrepairable (L:=lib) brokenJoinsQuery 1
              (brokenJoin 8) brokenJoinsQuery 0%Z eq_refl eq_refl eq_refl)
    as (H & _ & _).
  rewrite (H eq_refl). split; reflexivity.
Defined.

(** C8 as stated fails in both halves.  First half: the join is invalid
    and its cleaned form is still invalid, and the join step's [clean]
    leaves it in place, because it has gaps.  Second half: the [clean] of
    the filter step deletes a clause, the filter that is not in order; it
    does so through the collaborator's [cleanFilters]. *)
Lemma gap_join_is_kept_and_filter_clean_deletes :
  (joins gapJoinQuery !! 0 = Some (gapJoin 7) ∧
   Join_isValid (gapJoin 7) = false ∧
   Join_isValid (Join_clean (gapJoin 7)) = false ∧
   STEP_clean joinStep gapJoinQuery (Some 0) gapJoinQuery 0%Z
     ≠ removeJoin gapJoinQuery (Some 0) ∧
   joins (STEP_clean joinStep gapJoinQuery (Some 0) gapJoinQuery 0%Z) =
     [gapJoin 7]) ∧
  (filterStep ∈ STEPS (L:=lib) ∧ STEP_type filterStep ≠ "join" ∧
   stage_filters (thisStage staleFilterQuery) = [clause 2; staleClause 3] ∧
   stage_filters
     (thisStage
        (STEP_clean filterStep staleFilterQuery None staleFilterQuery 0%Z)) =
     [clause 2]).
Proof.
  split.
  - repeat split; try reflexivity. discriminate.
  - split; [|repeat split; try reflexivity; discriminate].
    apply (list_elem_of_lookup_2 _ 3). reflexivity.
Qed.

(** A first stage (a filter, a sort and a limit on a table) and a later
    stage (a filter and a sort on a grouped count, whose data instance is
    hidden). *)
Lemma reverting_visible_steps_gives_data_only_witness :
  revertChain
    (steps (getStageSteps (L:=lib) filterSortLimitQuery filterSortLimitQuery
              0 true ∅))
    filterSortLimitQuery
  = Some plainQuery ∧
  type <$> steps (getStageSteps (L:=lib) twoStageQuery twoStageQuery 1 true ∅)
  = ["filter"; "sort"] ∧
  revertChain
    (steps (getStageSteps (L:=lib) twoStageQuery twoStageQuery 1 true ∅))
    twoStageQuery
  = Some (mkQuery (Some sampleDb) [groupedStage] emptyStage).
Proof.
  split; [|split; [reflexivity|]].
  - exact (reverting_visible_steps_gives_data_only filterSortLimitQuery
             filterSortLimitQuery 0 true ∅ eq_refl eq_refl).
  - exact (reverting_visible_steps_gives_data_only twoStageQuery
             twoStageQuery 1 true ∅ eq_refl eq_refl).
Defined.

(** C4 as stated fails: a count with a row limit has one stage whose
    visible steps are [data] and [summarize]; the [limit] step is invalid
    there (an aggregation without a breakout) and so hidden, and reverting
    the visible steps leaves the limit in the query. *)
Lemma hidden_limit_survives_reverts :
  let out := getQuestionSteps (L:=lib) countLimitQuestion ∅ in
  @queries lib (stagedQuery (L:=lib) countLimitQuestion) = [countLimitQuery] ∧
  type <$> out = ["data"; "summarize"] ∧
  revertChain out countLimitQuery =
    Some (mkQuery (Some sampleDb) [] (setLimit (Some 10) tableStage)) ∧
  revertChain out countLimitQuery ≠ Some (dataOnly countLimitQuery).
Proof.
  cbv zeta. split; [reflexivity|]. split; [reflexivity|].
  split; [reflexivity|]. vm_compute. discriminate.
Qed.

(** Why the stage must be the one the limit step addresses: here the
    top-level query has a trailing empty stage that [cleanNesting] strips.
    The derived stage is the last one, so its limit step carries [-1] and
    looks at the stripped stage of the top-level query; it is inactive and
    hidden although the stage holds a limit, which no revert removes. *)
Remark misaddressed_limit_survives_reverts :
  let out := getQuestionSteps (L:=lib) trailingEmptyQuestion ∅ in
  let stageQuery := mkQuery (Some sampleDb) [] limitedStage in
  @queries lib (stagedQuery (L:=lib) trailingEmptyQuestion) = [stageQuery] ∧
  forallb (λ s, implb (active s) (valid s))
    (tail (rawSteps (L:=lib) trailingEmptyQuery stageQuery 0 true ∅)) = true ∧
  stageAddressed trailingEmptyQuery (-1) ≠ Some stageQuery ∧
  type <$> out = ["data"] ∧
  revertChain out stageQuery = Some stageQuery ∧
  stageQuery ≠ dataOnly stageQuery.
Proof.
  cbv zeta. repeat (split; [reflexivity || (vm_compute; discriminate)|]).
  vm_compute. discriminate.
Qed.

(** C1.  The cascade of [update] is not idempotent on a stage with three
    joins of which the second and the third are invalid, without gaps and
    beyond repair.  After an edit of the first join step the walk visits
    the join steps of items 1 and 2: the clean of item 1 removes the second
    join, which moves the third join to index 1, and the clean of item 2
    then finds no join at index 2.  One pass leaves a broken join in the
    query; a second pass over the result removes it, whether it walks the
    same steps or the steps derived afresh from the result. *)
Theorem cascade_leaves_second_broken_join :
  let allSteps := getQuestionSteps (L:=lib) brokenJoinsQuestion ∅ in
  let once := cascade allSteps 1 brokenJoinsQuery in
  let twice := once ≫= cascade allSteps 1 in
  let twiceAfresh :=
    once ≫= λ q, cascade (getQuestionSteps (L:=lib) (questionOf q) ∅) 1 q in
  id <$> allSteps = ["0:data"; "0:join"; "0:join:1"; "0:join:2"] ∧
  update allSteps 1 brokenJoinsQuery = once ∧
  joins <$> once = Some [goodJoin 7; brokenJoin 9] ∧
  joins <$> twice = Some [goodJoin 7] ∧
  joins <$> twiceAfresh = Some [goodJoin 7] ∧
  twice ≠ once ∧ twiceAfresh ≠ once.
Proof.
  cbv zeta. do 5 (split; [vm_compute; reflexivity|]).
  split; vm_compute; discriminate.
Qed.

(** The walk of [update] compares the [stageIndex] fields of neighbouring
    steps to detect a stage boundary.  When the first visible step of the
    last stage is a [sort] (or [limit]) step, its [stageIndex] is the
    sentinel [-1], the comparison fails, the source query is not
    re-pointed, and the walk returns the previous stage alone. *)
Remark update_walk_misses_boundary_before_sentinel :
  let allSteps := getQuestionSteps (L:=lib) sortOnlyQuestion ∅ in
  (id <$> allSteps, stageIndex <$> allSteps) =
    (["0:data"; "0:summarize"; "1:sort"], [0; 0; -1]%Z) ∧
  cascade allSteps 0 (mkQuery (Some sampleDb) [] groupedStage) =
    Some (mkQuery (Some sampleDb) [] groupedStage).
Proof. cbv zeta. split; reflexivity. Qed.

End ConcreteQuestions.

(** ** Further properties of the derivation *)

(** *** Lists and strings *)

Lemma filter_fmap_fixed {A} (f : A → A) (P : A → Prop)
    `{!∀ x, Decision (P x)} (l : list A) :
  f <$> l = l → f <$> filter P l = filter P l.
Proof.
  induction l as [|x l IH]; [done|]. cbn [fmap list_fmap].
  intros [= Hx Hl]. rewrite filter_cons. case_decide; [|by apply IH].
  cbn [fmap list_fmap]. f_equal; [done|by apply IH].
Qed.

Lemma filter_fmap {A B} (f : A → B) (P : B → Prop)
    `{!∀ y, Decision (P y)} (l : list A) :
  filter P (f <$> l) = f <$> filter (λ x, P (f x)) l.
Proof.
  induction l as [|x l IH]; [done|]. cbn [fmap list_fmap].
  rewrite !filter_cons, IH. by case_decide.
Qed.

Lemma filter_ext_elem {A} (P Q : A → Prop) `{!∀ x, Decision (P x)}
    `{!∀ x, Decision (Q x)} (l : list A) :
  (∀ x, x ∈ l → P x ↔ Q x) → filter P l = filter Q l.
Proof.
  induction l as [|x l IH]; intros Hext; [done|]. rewrite !filter_cons.
  rewrite IH by (intros y Hy; apply Hext, elem_of_cons; by right).
  assert (P x ↔ Q x) as Hx by (apply Hext, elem_of_cons; by left).
  repeat case_decide; tauto.
Qed.

(** In a list without two elements of the same key, an element splits the
    list in one way only. *)
Lemma split_unique {A B} (f : A → B) (l a b a' b' : list A) (x x' : A) :
  NoDup (f <$> l) → l = a ++ x :: b → l = a' ++ x' :: b' → f x = f x' →
  a = a' ∧ x = x' ∧ b = b'.
Proof.
  intros Hnd Hl Hl' Hf.
  assert (length a = length a') as Hlen.
  { apply (NoDup_lookup (f <$> l) _ _ (f x) Hnd).
    - rewrite Hl, list_lookup_fmap, list_lookup_middle; done.
    - rewrite Hl', list_lookup_fmap, list_lookup_middle, Hf; done. }
  rewrite Hl in Hl'. apply app_inj_1 in Hl' as [-> [= -> ->]]; done.
Qed.

Lemma NoDup_concat_blocks {A} (blocks : list (list A)) :
  Forall NoDup blocks →
  (∀ i j b c x, blocks !! i = Some b → blocks !! j = Some c →
     x ∈ b → x ∈ c → i = j) →
  NoDup (concat blocks).
Proof.
  induction blocks as [|b blocks IH]; intros Hnd Hdisj; [apply NoDup_nil_2|].
  apply Forall_cons in Hnd as [Hb Hnd]. cbn [concat].
  apply NoDup_app. split; [done|]. split.
  - intros x Hx [c [Hc Hxc]]%list_elem_of_In%in_concat.
    apply list_elem_of_In, list_elem_of_lookup_1 in Hc as [j Hj].
    apply list_elem_of_In in Hxc.
    by specialize (Hdisj 0 (S j) b c x eq_refl Hj Hx Hxc).
  - apply IH; [done|]. intros i j c d x Hi Hj Hc Hd.
    by specialize (Hdisj (S i) (S j) c d x Hi Hj Hc Hd) as [= ->].
Qed.

Lemma concat_fmap_fmap {A B} (f : A → B) (ls : list (list A)) :
  f <$> concat ls = concat ((λ l : list A, f <$> l) <$> ls).
Proof.
  induction ls as [|l ls IH]; [done|]. cbn. by rewrite fmap_app, IH.
Qed.

Lemma sorted_filter {A} (R : relation A) (P : A → Prop)
    `{!∀ x, Decision (P x)} (l : list A) :
  StronglySorted R l → StronglySorted R (filter P l).
Proof.
  induction 1 as [|x l Hl IH Hx]; [constructor|].
  rewrite filter_cons. case_decide; [|done]. constructor; [done|].
  apply Forall_forall. intros y [_ Hy]%list_elem_of_filter.
  by eapply Forall_forall in Hx.
Qed.

(** The decimal form of a number holds no colon. *)
Lemma colonFree_pretty_N_go x s :
  colonFree s = true → colonFree (pretty_N_go x s) = true.
Proof.
  revert s. induction (N.lt_wf_0 x) as [x _ IH]; intros s Hs.
  assert (x = 0 ∨ 0 < x)%N as [->|Hx] by lia.
  - by rewrite pretty_N_go_0.
  - rewrite pretty_N_go_step by done. apply IH.
    + apply N.div_lt; lia.
    + cbn [colonFree]. rewrite Hs, andb_true_r.
      unfold pretty_N_char. by repeat case_match.
Qed.

Lemma colonFree_pretty_nat (n : nat) : colonFree (pretty n) = true.
Proof.
  unfold pretty, pretty_nat, pretty, pretty_N.
  case_decide; [done|]. by apply colonFree_pretty_N_go.
Qed.

(** Two strings that agree, each cut at a colon after a colon-free head,
    agree on both sides of it. *)
Lemma colon_split (a b x y : string) :
  colonFree a = true → colonFree b = true →
  a +:+ String ":" x = b +:+ String ":" y → a = b ∧ x = y.
Proof.
  revert b. induction a as [|c a IH]; intros [|d b] Ha Hb Heq.
  - by injection Heq as ->.
  - injection Heq as <- _. done.
  - injection Heq as -> _. done.
  - cbn [colonFree] in Ha, Hb.
    apply andb_true_iff in Ha as [_ Ha]. apply andb_true_iff in Hb as [_ Hb].
    injection Heq as -> Heq. destruct (IH b Ha Hb Heq) as [-> ->]. done.
Qed.

Ltac str_head H :=
  repeat change (String ?c ?a +:+ ?b) with (String c (a +:+ b)) in H;
  repeat change (EmptyString +:+ ?b) with b in H.

Section DerivationFacts.
Context {L : QueryLib}.
Implicit Types (s : NotebookStep) (STEP : NotebookStepDef).
Implicit Types (openSteps : gmap string bool).

(** *** The raw list as instances of the catalog entries *)

Lemma rawSteps_entries topQ stageQuery i isLast openSteps :
  rawSteps topQ stageQuery i isLast openSteps =
  (λ e, getStep topQ stageQuery i isLast openSteps e.1 e.2) <$>
    rawEntries stageQuery.
Proof.
  unfold rawSteps, rawEntries. generalize STEPS as defs.
  induction defs as [|STEP defs IH]; [done|].
  cbn [map concat]. rewrite fmap_app, IH. f_equal.
  destruct (STEP_subSteps STEP) as [f|]; [|done].
  change (map ?g ?l) with (g <$> l). by rewrite <- list_fmap_compose.
Qed.

Lemma rawEntries_shape stageQuery :
  rawEntries stageQuery =
  (dataStep, None) ::
  ((λ k, (joinStep, Some k)) <$> seq 0 (length (joins stageQuery) + 1)) ++
  [(expressionStep, None); (filterStep, None); (summarizeStep, None);
   (sortStep, None); (limitStep, None)].
Proof. reflexivity. Qed.

Lemma underived_getStep topQ stageQuery i isLast openSteps STEP k :
  underived (getStep topQ stageQuery i isLast openSteps STEP k) =
  getStep topQ stageQuery i isLast openSteps STEP k.
Proof. reflexivity. Qed.

Lemma underived_rawSteps topQ stageQuery i isLast openSteps :
  underived <$> rawSteps topQ stageQuery i isLast openSteps =
  rawSteps topQ stageQuery i isLast openSteps.
Proof.
  rewrite rawSteps_entries, <- list_fmap_compose.
  apply list_fmap_ext. intros j e _. apply underived_getStep.
Qed.

Lemma underived_keptSteps stageQuery raw :
  underived <$> keptSteps stageQuery raw =
  underived <$> filter (λ s, visible s = true) raw.
Proof.
  induction raw as [|s raw IH]; [done|].
  cbn [keptSteps]. rewrite filter_cons. destruct (visible s) eqn:Hv.
  - rewrite decide_True by done. cbn [fmap list_fmap]. rewrite <- IH.
    reflexivity.
  - by rewrite decide_False by done.
Qed.

(** What the reverse loop keeps, the fields it fills in aside. *)
Lemma underived_steps topQ stageQuery i isLast openSteps :
  underived <$> steps (getStageSteps topQ stageQuery i isLast openSteps) =
  filter (λ s, visible s = true)
    (rawSteps topQ stageQuery i isLast openSteps).
Proof.
  rewrite getStageSteps_steps, underived_keptSteps.
  apply filter_fmap_fixed, underived_rawSteps.
Qed.

(** X1.  The steps that [getStageSteps] returns are, the preview and the
    actions that the reverse loop fills in aside, exactly the visible
    instances of the raw list, in the order of the raw list; and the raw
    list is, in this order: the data instance, one join instance per join
    of the stage and one more, then the expression, filter, summarize,
    sort and limit instances. *)
Theorem returned_steps_are_visible_raw_in_order topQ stageQuery i isLast
    openSteps :
  underived <$> steps (getStageSteps topQ stageQuery i isLast openSteps) =
  filter (λ s, visible s = true)
    (rawSteps topQ stageQuery i isLast openSteps) ∧
  (λ s, (type s, itemIndex s)) <$>
    rawSteps topQ stageQuery i isLast openSteps =
  ("data", None) ::
  ((λ k, ("join", Some k)) <$> seq 0 (length (joins stageQuery) + 1)) ++
  [("expression", None); ("filter", None); ("summarize", None);
   ("sort", None); ("limit", None)].
Proof.
  split; [apply underived_steps|].
  rewrite rawSteps_entries, rawEntries_shape, <- list_fmap_compose.
  cbn [fmap list_fmap]. f_equal. rewrite fmap_app. f_equal.
  by rewrite <- list_fmap_compose.
Qed.

(** *** The steps of a question, stage by stage *)

Lemma pushActions_without_actions allSteps acts :
  set_actions [] <$> pushActions allSteps acts = set_actions [] <$> allSteps.
Proof.
  unfold pushActions. destruct (length allSteps) as [|n]; [done|].
  rewrite (list_fmap_alter (set_actions []) _ (λ x, x)).
  - apply list_alter_id. done.
  - apply Forall_forall. intros s _. by destruct s.
Qed.

Lemma questionLoop_without_actions topQ n openSteps entries allSteps :
  set_actions [] <$> foldl (questionLoopBody topQ n openSteps) allSteps entries
  = (set_actions [] <$> allSteps) ++
    concat ((λ e, set_actions [] <$>
               steps (getStageSteps topQ e.2 e.1 (bool_decide (e.1 = n - 1))
                        openSteps)) <$> entries).
Proof.
  revert allSteps. induction entries as [|[i q] entries IH]; intros allSteps.
  - cbn. by rewrite app_nil_r.
  - cbn [foldl]. rewrite IH. unfold questionLoopBody at 1.
    rewrite fmap_app, pushActions_without_actions.
    cbn [fmap list_fmap concat fst snd]. by rewrite <- app_assoc.
Qed.

(** X2.  The steps that [getQuestionSteps] returns are, their actions
    aside, the steps that [getStageSteps] returns for the stages of the
    question (after [cleanNesting] and the optional [nest]), stage after
    stage; a question that is not structured has no steps. *)
Theorem question_steps_stage_by_stage question0 openSteps :
  set_actions [] <$> getQuestionSteps question0 openSteps =
  if isStructured question0
  then concat ((λ e, set_actions [] <$> steps (stageResult question0 openSteps e))
                 <$> stageEntries question0)
  else [].
Proof.
  unfold getQuestionSteps. destruct (isStructured question0); [|done].
  cbn zeta. by rewrite questionLoop_without_actions.
Qed.

(** The same for any field but the actions. *)
Lemma question_fields {A} (f : NotebookStep → A) question0 openSteps :
  (∀ s, f (set_actions [] s) = f s) →
  f <$> getQuestionSteps question0 openSteps =
  if isStructured question0
  then concat ((λ e, f <$> steps (stageResult question0 openSteps e))
                 <$> stageEntries question0)
  else [].
Proof.
  intros Hf.
  transitivity (f <$> (set_actions [] <$> getQuestionSteps question0 openSteps)).
  { rewrite <- list_fmap_compose. apply list_fmap_ext. intros j s _.
    symmetry. apply Hf. }
  unfold getQuestionSteps. destruct (isStructured question0); [|done].
  cbn zeta. rewrite questionLoop_without_actions. cbn [fmap list_fmap app].
  rewrite concat_fmap_fmap, <- list_fmap_compose. f_equal.
  apply list_fmap_ext. intros j e _. cbn. rewrite <- list_fmap_compose.
  apply list_fmap_ext. intros j' s _. apply Hf.
Qed.

Lemma question_ids question0 openSteps :
  id <$> getQuestionSteps question0 openSteps =
  if isStructured question0
  then concat ((λ e, id <$> steps (stageResult question0 openSteps e))
                 <$> stageEntries question0)
  else [].
Proof. by apply question_fields. Qed.

(** *** Step ids *)

Lemma getStep_id topQ stageQuery i isLast openSteps STEP k :
  id (getStep topQ stageQuery i isLast openSteps STEP k) =
  pretty i +:+ String ":" (idTail (STEP, k)).
Proof.
  cbn [id getStep]. unfold getId, idTail. cbn [fst snd].
  by rewrite !string_app_assoc.
Qed.

Lemma idTail_join_inj (a b : nat) :
  idTail (joinStep, Some a) = idTail (joinStep, Some b) → a = b.
Proof.
  unfold idTail. cbn [fst snd STEP_type joinStep isValidItemIndex default].
  intros H%(inj (String.app "join")).
  destruct a as [|a], b as [|b]; [done| | |].
  - rewrite bool_decide_eq_false_2, bool_decide_eq_true_2 in H by lia.
    str_head H. discriminate H.
  - rewrite bool_decide_eq_true_2, bool_decide_eq_false_2 in H by lia.
    str_head H. discriminate H.
  - rewrite !bool_decide_eq_true_2 in H by lia.
    apply (inj (String.app ":")) in H. by apply (inj pretty) in H.
Qed.

Lemma NoDup_idTail stageQuery : NoDup (idTail <$> rawEntries stageQuery).
Proof.
  rewrite rawEntries_shape. cbn [fmap list_fmap]. rewrite fmap_app.
  rewrite <- list_fmap_compose.
  assert (∀ k t, idTail (joinStep, Some k) = t →
            String.get 0 t = Some "j"%char) as Hj.
  { intros k t <-. unfold idTail. cbn [fst snd STEP_type joinStep].
    reflexivity. }
  apply NoDup_cons. split.
  { intros [H|H]%elem_of_app.
    - apply list_elem_of_fmap in H as (k & H & _).
      symmetry in H. apply Hj in H. discriminate H.
    - cbn in H. rewrite !elem_of_cons, elem_of_nil in H.
      vm_compute in H. intuition discriminate. }
  apply NoDup_app. split; [|split].
  - apply NoDup_fmap_2_strong; [|apply NoDup_seq].
    intros a b _ _. apply idTail_join_inj.
  - intros t (k & H & _)%list_elem_of_fmap Ht. symmetry in H.
    apply Hj in H. cbn in Ht. rewrite !elem_of_cons, elem_of_nil in Ht.
    destruct Ht as [->|[->|[->|[->|[->|[]]]]]]; discriminate H.
  - cbn [fmap list_fmap]. vm_compute.
    repeat (apply NoDup_cons; split;
            [rewrite ?elem_of_cons, elem_of_nil; intuition discriminate|]).
    apply NoDup_nil_2.
Qed.

Lemma NoDup_rawSteps_ids topQ stageQuery i isLast openSteps :
  NoDup (id <$> rawSteps topQ stageQuery i isLast openSteps).
Proof.
  rewrite rawSteps_entries, <- list_fmap_compose.
  rewrite (list_fmap_ext _ ((λ t, pretty i +:+ String ":" t) ∘ idTail)).
  - rewrite list_fmap_compose. apply NoDup_fmap_2_strong; [|apply NoDup_idTail].
    intros a b _ _ H%(inj (String.app (pretty i))). by injection H.
  - intros j [STEP k] _. apply getStep_id.
Qed.

Lemma stageEntries_lookup question0 j e :
  stageEntries question0 !! j = Some e →
  e.1 = j ∧ queries (stagedQuery question0) !! j = Some e.2.
Proof.
  unfold stageEntries. rewrite list_lookup_imap.
  destruct (queries (stagedQuery question0) !! j); [|done].
  by intros [= <-].
Qed.

Lemma rawSteps_id_stage topQ stageQuery i isLast openSteps s :
  s ∈ rawSteps topQ stageQuery i isLast openSteps →
  ∃ t, id s = pretty i +:+ String ":" t.
Proof.
  intros (STEP & k & _ & ->)%rawSteps_elem. eexists. apply getStep_id.
Qed.

Lemma returned_ids_sublist topQ stageQuery i isLast openSteps :
  id <$> steps (getStageSteps topQ stageQuery i isLast openSteps)
  `sublist_of` id <$> rawSteps topQ stageQuery i isLast openSteps.
Proof.
  replace (id <$> steps (getStageSteps topQ stageQuery i isLast openSteps))
    with (id <$> (underived <$>
            steps (getStageSteps topQ stageQuery i isLast openSteps))).
  - rewrite underived_steps. apply fmap_sublist, sublist_filter.
  - rewrite <- list_fmap_compose. done.
Qed.

Lemma other_stage_ids question0 openSteps openSteps' j e j0 e0 s s0 :
  stageEntries question0 !! j = Some e →
  stageEntries question0 !! j0 = Some e0 →
  s ∈ stageRawSteps question0 openSteps e →
  s0 ∈ stageRawSteps question0 openSteps' e0 →
  id s = id s0 → j = j0.
Proof.
  intros [<- _]%stageEntries_lookup [<- _]%stageEntries_lookup.
  intros [t ->]%rawSteps_id_stage [t0 ->]%rawSteps_id_stage.
  intros [H _]%colon_split; try apply colonFree_pretty_nat.
  by apply (inj pretty) in H.
Qed.

Lemma NoDup_question_ids question0 openSteps :
  NoDup (id <$> getQuestionSteps question0 openSteps).
Proof.
  rewrite question_ids. destruct (isStructured question0); [|apply NoDup_nil_2].
  apply NoDup_concat_blocks.
  - apply Forall_fmap, Forall_forall. intros e _. unfold stageResult.
    eapply sublist_NoDup; [apply NoDup_rawSteps_ids|].
    apply returned_ids_sublist.
  - intros j1 j2 b c x. rewrite !list_lookup_fmap.
    destruct (stageEntries question0 !! j1) as [e1|] eqn:E1; [|done].
    destruct (stageEntries question0 !! j2) as [e2|] eqn:E2; [|done].
    cbn [fmap option_fmap option_map]. intros [= <-] [= <-] H1 H2.
    assert (∀ e, x ∈ id <$> steps (stageResult question0 openSteps e) →
                 ∃ s, s ∈ stageRawSteps question0 openSteps e ∧ x = id s)
      as Hform.
    { intros e Hx. eapply elem_of_sublist in Hx; [|apply returned_ids_sublist].
      apply list_elem_of_fmap in Hx as (s & -> & Hs). by exists s. }
    destruct (Hform _ H1) as (s1 & Hs1 & ->).
    destruct (Hform _ H2) as (s2 & Hs2 & Heq).
    by eapply (other_stage_ids question0 openSteps openSteps j1 e1 j2 e2 s1 s2).
Qed.

(** X3.  Step ids are unique: no two instances of the raw list of a stage
    share an id, and no two steps that [getQuestionSteps] returns share an
    id, whatever the number of stages and of joins. *)
Theorem step_ids_are_unique question0 topQ stageQuery i isLast openSteps :
  NoDup (id <$> rawSteps topQ stageQuery i isLast openSteps) ∧
  NoDup (id <$> getQuestionSteps question0 openSteps).
Proof.
  split; [apply NoDup_rawSteps_ids|apply NoDup_question_ids].
Qed.

(** *** Actions *)

Lemma keptSteps_actions stageQuery raw :
  pendingActions raw ++ concat (actions <$> keptSteps stageQuery raw) =
  hiddenActions raw.
Proof.
  unfold hiddenActions. induction raw as [|s raw IH]; [done|].
  cbn [pendingActions keptSteps]. rewrite filter_cons.
  destruct (visible s) eqn:Hv.
  - rewrite decide_False by (intros [? _]; done).
    cbn [fmap list_fmap concat actions set_actions app]. exact IH.
  - destruct (valid s) eqn:Hval.
    + rewrite decide_True by done. cbn [fmap list_fmap app].
      rewrite <- IH. reflexivity.
    + rewrite decide_False by (intros [_ ?]; done). exact IH.
Qed.

Lemma stage_all_actions topQ stageQuery i isLast openSteps :
  hiddenActions (rawSteps topQ stageQuery i isLast openSteps) =
  stage_actions (getStageSteps topQ stageQuery i isLast openSteps) ++
  concat (actions <$> steps (getStageSteps topQ stageQuery i isLast openSteps)).
Proof.
  rewrite getStageSteps_steps, getStageSteps_actions.
  symmetry. apply keptSteps_actions.
Qed.

(** X4.  The actions that [getStageSteps] hands out (those it returns
    unattached, followed by those of the returned steps in order) are one
    action per hidden valid instance of the raw list, in the order of the
    raw list, each carrying the type and the id of its instance: no such
    instance is left out, none is offered twice, and no visible or invalid
    instance is offered. *)
Theorem stage_actions_are_the_hidden_valid_steps topQ stageQuery i isLast
    openSteps :
  let r := getStageSteps topQ stageQuery i isLast openSteps in
  stage_actions r ++ concat (actions <$> steps r) =
  hiddenActions (rawSteps topQ stageQuery i isLast openSteps).
Proof.
  cbn zeta. rewrite getStageSteps_steps, getStageSteps_actions.
  apply keptSteps_actions.
Qed.

Lemma pushActions_concat allSteps acts :
  allSteps ≠ [] →
  concat (actions <$> pushActions allSteps acts) =
  concat (actions <$> allSteps) ++ acts.
Proof.
  destruct allSteps as [|x l] using rev_ind; [done|]. intros _. clear IHl.
  unfold pushActions. rewrite length_app. cbn [length].
  replace (length l + 1) with (S (length l + 0)) by lia.
  rewrite alter_app_r. cbn [alter list_alter].
  rewrite !fmap_app, !concat_app. cbn. by rewrite !app_nil_r, app_assoc.
Qed.





(** Whatever the first stage, an action of a returned step offers a hidden
    valid instance of some stage. *)
Lemma questionLoop_action_sound topQ n openSteps entries allSteps a :
  a ∈ concat (actions <$>
        foldl (questionLoopBody topQ n openSteps) allSteps entries) →
  a ∈ concat (actions <$> allSteps) ∨
  ∃ e, e ∈ entries ∧
       a ∈ hiddenActions
             (rawSteps topQ e.2 e.1 (bool_decide (e.1 = n - 1)) openSteps).
Proof.
  revert allSteps. induction entries as [|[i q] entries IH]; intros allSteps.
  { by left. }
  cbn [foldl]. intros [H|(e & He & Ha)]%IH.
  - unfold questionLoopBody in H.
    rewrite fmap_app, concat_app in H. apply elem_of_app in H as [H|H].
    + destruct (decide (allSteps = [])) as [->|Hne]; [by left|].
      rewrite pushActions_concat in H by done.
      apply elem_of_app in H as [H|H]; [by left|].
      right. exists (i, q). split; [apply elem_of_cons; by left|].
      cbn [fst snd]. rewrite stage_all_actions. apply elem_of_app. by left.
    + right. exists (i, q). split; [apply elem_of_cons; by left|].
      cbn [fst snd]. rewrite stage_all_actions. apply elem_of_app. by right.
  - right. exists e. split; [apply elem_of_cons; by right|done].
Qed.

Lemma question_action_sound question0 openSteps s a :
  s ∈ getQuestionSteps question0 openSteps → a ∈ actions s →
  ∃ j e s0,
    stageEntries question0 !! j = Some e ∧
    s0 ∈ stageRawSteps question0 openSteps e ∧
    visible s0 = false ∧ valid s0 = true ∧ a = openAction s0.
Proof.
  intros Hs Ha.
  assert (a ∈ concat (actions <$> getQuestionSteps question0 openSteps)) as H.
  { apply list_elem_of_In, in_concat. exists (actions s).
    split; [|by apply list_elem_of_In].
    apply list_elem_of_In, list_elem_of_fmap. by exists s. }
  unfold getQuestionSteps in H. destruct (isStructured question0).
  2: { by apply elem_of_nil in H. }
  cbn zeta in H. apply questionLoop_action_sound in H as [H|(e & He & H)].
  { by apply elem_of_nil in H. }
  apply list_elem_of_lookup_1 in He as [j Hj].
  unfold hiddenActions in H.
  apply list_elem_of_fmap in H as (s0 & -> & [[Hv Hval] Hs0]%list_elem_of_filter).
  by exists j, e, s0.
Qed.

(** *** Forcing a step open *)

Lemma returned_ids_entries topQ stageQuery i isLast openSteps :
  id <$> steps (getStageSteps topQ stageQuery i isLast openSteps) =
  (λ e, pretty i +:+ String ":" (idTail e)) <$>
    filter (λ e, visible (getStep topQ stageQuery i isLast openSteps e.1 e.2)
                 = true)
      (rawEntries stageQuery).
Proof.
  transitivity (id <$> (underived <$>
    steps (getStageSteps topQ stageQuery i isLast openSteps))).
  { by rewrite <- list_fmap_compose. }
  rewrite underived_steps.
  rewrite rawSteps_entries, filter_fmap, <- list_fmap_compose.
  apply list_fmap_ext. intros j [STEP k] _. apply getStep_id.
Qed.

Lemma visible_insert topQ stageQuery i isLast openSteps ida STEP k :
  visible (getStep topQ stageQuery i isLast (<[ida:=true]> openSteps) STEP k) =
  visible (getStep topQ stageQuery i isLast openSteps STEP k) ||
  (valid (getStep topQ stageQuery i isLast openSteps STEP k) &&
   bool_decide (id (getStep topQ stageQuery i isLast openSteps STEP k) = ida)).
Proof.
  cbn [visible valid id getStep]. unfold isOpen. rewrite lookup_insert.
  set (v := STEP_valid _ _ _ _ _). set (a := STEP_active _ _ _ _ _).
  destruct (decide (ida = getId i STEP k)) as [->|Hne].
  - rewrite bool_decide_eq_true_2 by done. cbn. by destruct v, a, (_ !! _) as [[]|].
  - rewrite bool_decide_eq_false_2 by done. cbn. by destruct v, a, (_ !! _) as [[]|].
Qed.

(** Forcing open the id of a hidden valid instance of a stage adds that
    instance to the steps of the stage, in its place. *)
Lemma stage_open_adds_one topQ stageQuery i isLast openSteps s0 :
  s0 ∈ rawSteps topQ stageQuery i isLast openSteps →
  visible s0 = false → valid s0 = true →
  ∃ before after,
    id <$> steps (getStageSteps topQ stageQuery i isLast openSteps) =
      before ++ after ∧
    id <$> steps (getStageSteps topQ stageQuery i isLast
                    (<[id s0 := true]> openSteps)) =
      before ++ id s0 :: after.
Proof.
  rewrite rawSteps_entries.
  intros ([STEP0 k0] & -> & Hd0)%list_elem_of_fmap Hv Hval. cbn [fst snd] in *.
  apply list_elem_of_split in Hd0 as (k1 & k2 & Hdefs).
  pose proof (NoDup_idTail stageQuery) as Hnd. rewrite Hdefs in Hnd.
  rewrite fmap_app in Hnd. cbn [fmap list_fmap] in Hnd.
  apply NoDup_app in Hnd as (_ & Hk1 & [Hk2 _]%NoDup_cons).
  set (s0 := getStep topQ stageQuery i isLast openSteps STEP0 k0) in *.
  assert (∀ d, d ∈ k1 ∨ d ∈ k2 →
            (visible (getStep topQ stageQuery i isLast
                        (<[id s0 := true]> openSteps) d.1 d.2) = true ↔
             visible (getStep topQ stageQuery i isLast openSteps d.1 d.2)
               = true)) as Hsame.
  { intros [STEP k] Hd. cbn [fst snd]. rewrite visible_insert.
    rewrite (bool_decide_eq_false_2 (id _ = id s0)).
    { by rewrite andb_false_r, orb_false_r. }
    unfold s0. rewrite !getStep_id.
    intros H%(inj (String.app (pretty i))). injection H as H.
    destruct Hd as [Hd|Hd].
    - apply (Hk1 (idTail (STEP, k))).
      + apply list_elem_of_fmap. by exists (STEP, k).
      + rewrite H. apply elem_of_cons. by left.
    - apply Hk2. rewrite <- H. apply list_elem_of_fmap. by exists (STEP, k). }
  rewrite !returned_ids_entries, Hdefs, !filter_app, !filter_cons.
  cbn [fst snd]. fold s0. rewrite Hv. rewrite decide_False by done.
  rewrite decide_True.
  2: { rewrite visible_insert. fold s0. rewrite Hval.
       by rewrite bool_decide_eq_true_2, orb_true_r. }
  assert (∀ k : list (NotebookStepDef * option nat),
            (∀ d, d ∈ k → d ∈ k1 ∨ d ∈ k2) →
            filter (λ e, visible (getStep topQ stageQuery i isLast
                      (<[id s0 := true]> openSteps) e.1 e.2) = true) k =
            filter (λ e, visible (getStep topQ stageQuery i isLast
                      openSteps e.1 e.2) = true) k) as Hf.
  { intros k Hk. apply filter_ext_elem. intros d Hd. by apply Hsame, Hk. }
  rewrite (Hf k1), (Hf k2) by auto.
  rewrite !fmap_app. cbn [fmap list_fmap]. unfold s0. rewrite getStep_id.
  by eexists _, _.
Qed.

(** Forcing open an id that no instance of the stage carries changes
    nothing in the stage. *)
Lemma stage_open_elsewhere topQ stageQuery i isLast openSteps ida :
  (∀ s, s ∈ rawSteps topQ stageQuery i isLast openSteps → id s ≠ ida) →
  id <$> steps (getStageSteps topQ stageQuery i isLast
                  (<[ida := true]> openSteps)) =
  id <$> steps (getStageSteps topQ stageQuery i isLast openSteps).
Proof.
  intros Hne. rewrite !returned_ids_entries. f_equal.
  apply filter_ext_elem. intros [STEP k] Hd. cbn [fst snd].
  rewrite visible_insert. rewrite (bool_decide_eq_false_2 (id _ = ida)).
  { by rewrite andb_false_r, orb_false_r. }
  apply Hne. rewrite rawSteps_entries. apply list_elem_of_fmap.
  by exists (STEP, k).
Qed.

Lemma getQuestionSteps_structured question0 openSteps s :
  s ∈ getQuestionSteps question0 openSteps → isStructured question0 = true.
Proof.
  unfold getQuestionSteps. destruct (isStructured question0); [done|].
  intros H. by apply elem_of_nil in H.
Qed.

(** Forcing open the id of a hidden valid instance of one stage adds that
    id to the ids of the steps of the question, in its place. *)
Lemma question_open_adds_one question0 openSteps j0 e0 s0 :
  isStructured question0 = true →
  stageEntries question0 !! j0 = Some e0 →
  s0 ∈ stageRawSteps question0 openSteps e0 →
  visible s0 = false → valid s0 = true →
  ∃ before after,
    id <$> getQuestionSteps question0 openSteps = before ++ after ∧
    id <$> getQuestionSteps question0 (<[id s0 := true]> openSteps)
      = before ++ id s0 :: after.
Proof.
  intros Hstr Hj0 Hs0 Hv Hval.
  rewrite !question_ids, Hstr.
  rewrite <- (take_drop_middle _ _ _ Hj0).
  rewrite !fmap_app. cbn [fmap list_fmap]. rewrite !concat_app. cbn [concat].
  assert (∀ j e, j ≠ j0 → stageEntries question0 !! j = Some e →
            id <$> steps (stageResult question0 (<[id s0 := true]> openSteps) e)
            = id <$> steps (stageResult question0 openSteps e)) as Hother.
  { intros j e Hne Hj. apply stage_open_elsewhere. intros s1 Hs1 Heq.
    apply Hne.
    by eapply (other_stage_ids question0 openSteps openSteps j e j0 e0 s1 s0). }
  rewrite (list_fmap_ext
    (λ e, id <$> steps (stageResult question0 (<[id s0 := true]> openSteps) e))
    (λ e, id <$> steps (stageResult question0 openSteps e))
    (take j0 (stageEntries question0))).
  2: { intros j e [Hj Hlt]%lookup_take_Some. apply (Hother j e); [lia|done]. }
  rewrite (list_fmap_ext
    (λ e, id <$> steps (stageResult question0 (<[id s0 := true]> openSteps) e))
    (λ e, id <$> steps (stageResult question0 openSteps e))
    (drop (S j0) (stageEntries question0))).
  2: { intros j e Hj. rewrite lookup_drop in Hj.
       apply (Hother (S j0 + j) e); [lia|done]. }
  destruct (stage_open_adds_one _ _ _ _ _ s0 Hs0 Hv Hval)
    as (b & c & Hb & Hc).
  set (pre := concat (_ <$> take j0 (stageEntries question0))).
  set (post := concat (_ <$> drop (S j0) (stageEntries question0))).
  unfold stageResult. rewrite Hb, Hc.
  exists (pre ++ b), (c ++ post). by rewrite <- !app_assoc.
Qed.

(** X6.  An action never names a step that is already shown: the id that
    an action of a returned step opens is the id of none of the steps
    that [getQuestionSteps] returns. *)
Theorem actions_never_open_a_shown_step question0 openSteps s a s' :
  s ∈ getQuestionSteps question0 openSteps →
  a ∈ actions s →
  s' ∈ getQuestionSteps question0 openSteps →
  id s' ≠ action_openStep a.
Proof.
  intros Hs Ha Hs' Heq.
  pose proof (getQuestionSteps_structured _ _ _ Hs) as Hstr.
  destruct (question_action_sound _ _ _ _ Hs Ha)
    as (j0 & e0 & s0 & Hj0 & Hs0 & Hv & Hval & ->).
  cbn [action_openStep openAction] in Heq.
  destruct (question_open_adds_one _ _ _ _ _ Hstr Hj0 Hs0 Hv Hval)
    as (b & c & Hb & Hc).
  pose proof (NoDup_question_ids question0 (<[id s0 := true]> openSteps))
    as Hnd.
  rewrite Hc in Hnd. apply NoDup_app in Hnd as (_ & Hbc & [Hc' _]%NoDup_cons).
  assert (id s' ∈ b ++ c) as [H|H]%elem_of_app.
  { rewrite <- Hb. by apply list_elem_of_fmap_2. }
  - apply (Hbc _ H). rewrite Heq. apply elem_of_cons. by left.
  - apply Hc'. by rewrite <- Heq.
Qed.

(** X7.  Taking an action works: when the id that an action of a returned
    step opens is added to the force-open set, [getQuestionSteps] returns
    the same steps as before, in the same order, with one more step, the
    one that carries that id, in between. *)
Theorem opening_an_action_adds_its_step question0 openSteps s a :
  s ∈ getQuestionSteps question0 openSteps →
  a ∈ actions s →
  ∃ before after,
    id <$> getQuestionSteps question0 openSteps = before ++ after ∧
    id <$> getQuestionSteps question0 (<[action_openStep a := true]> openSteps)
      = before ++ action_openStep a :: after.
Proof.
  intros Hs Ha.
  pose proof (getQuestionSteps_structured _ _ _ Hs) as Hstr.
  destruct (question_action_sound _ _ _ _ Hs Ha)
    as (j0 & e0 & s0 & Hj0 & Hs0 & Hv & Hval & ->).
  cbn [action_openStep openAction].
  by eapply question_open_adds_one.
Qed.

(** *** Previews and the force-open set *)

Lemma revertChain_fmap_ext {A} (g g' : A → NotebookStep) (l : list A) q :
  (∀ x, revert (g x) = revert (g' x)) →
  revertChain (g <$> l) q = revertChain (g' <$> l) q.
Proof.
  intros Hg. induction l as [|x l IH]; [done|].
  cbn [fmap list_fmap]. rewrite !revertChain_cons, IH, Hg. done.
Qed.

(** A returned step, its actions aside, as an instance of a catalog entry
    of one of the stages. *)
Lemma returned_step_form question0 openSteps s :
  s ∈ getQuestionSteps question0 openSteps →
  ∃ i q k1 d k2,
    let g := λ e : NotebookStepDef * option nat,
      getStep (getMLv2Query (question (rootQuery (Question_query question0))))
        q i (bool_decide (i = length (queries (stagedQuery question0)) - 1))
        openSteps e.1 e.2 in
    queries (stagedQuery question0) !! i = Some q ∧
    rawEntries q = k1 ++ d :: k2 ∧
    visible (g d) = true ∧
    set_actions [] s =
    set_actions []
      (set_previewQuery
         (if active (g d) then revertChain (g <$> k2) q else None) (g d)).
Proof.
  intros (i & q & s0 & Hi & Hs0 & [acts ->])%getQuestionSteps_elem.
  rewrite getStageSteps_steps in Hs0.
  apply keptSteps_elem in Hs0 as (l1 & s1 & l2 & Hraw & Hv & ->).
  rewrite rawSteps_entries in Hraw.
  apply fmap_app_inv in Hraw as (k1 & k2' & -> & Hk2 & Hdefs).
  symmetry in Hk2. apply fmap_cons_inv in Hk2 as (d & k2 & -> & -> & ->).
  exists i, q, k1, d, k2. cbn zeta. done.
Qed.

(** X8.  A step that [getQuestionSteps] returns under two force-open sets
    (found by its id) has under both the same [id], [type], [stageIndex],
    [itemIndex], [topLevelQuery], [query], [valid], [active], [visible],
    [testID], [revert], [clean] and [previewQuery]: of the fields that
    [getStep] and the reverse loop set, only [actions] depends on which
    other steps are shown.  In particular the preview of a step does not
    change when another step is opened.  The links [next] and [previous],
    and [update], which walks [next], are not among these fields: they
    are positions in the returned list and do change with the force-open
    set. *)
Theorem open_set_keeps_step_fields question0 openSteps openSteps' s s' :
  s ∈ getQuestionSteps question0 openSteps →
  s' ∈ getQuestionSteps question0 openSteps' →
  id s = id s' →
  set_actions [] s = set_actions [] s'.
Proof.
  intros (i & q & k1 & d & k2 & Hi & Hdefs & Hv & Hs)%returned_step_form.
  intros (i' & q' & k1' & d' & k2' & Hi' & Hdefs' & Hv' & Hs')%returned_step_form.
  cbn zeta in *. intros Hid.
  assert (id s = id (set_actions [] s)) as Hid1 by done.
  assert (id s' = id (set_actions [] s')) as Hid2 by done.
  rewrite Hid1, Hid2, Hs, Hs' in Hid.
  cbn [id set_actions set_previewQuery] in Hid. rewrite !getStep_id in Hid.
  apply colon_split in Hid as [Hii Htail]; try apply colonFree_pretty_nat.
  apply (inj pretty) in Hii as <-.
  rewrite Hi in Hi'. injection Hi' as <-.
  destruct (split_unique idTail _ _ _ _ _ _ _ (NoDup_idTail q) Hdefs Hdefs')
    as (<- & <- & <-).
  { by destruct d, d'. }
  rewrite Hs, Hs'. unfold set_actions, set_previewQuery.
  cbn [id type stageIndex itemIndex topLevelQuery query valid active visible
       testID revert clean actions previewQuery].
  rewrite Hv, Hv'.
  rewrite (revertChain_fmap_ext _
    (λ e, getStep _ q i _ openSteps' e.1 e.2) k2) by done.
  reflexivity.
Qed.

(** *** [update] within one stage *)

Lemma updateWalk_no_boundary prev rest newQuery :
  StronglySorted (λ a b, b ≤ a)%Z (stageIndex <$> prev :: rest) →
  updateWalk prev rest newQuery = foldl (λ q s, clean s q) newQuery rest.
Proof.
  revert prev newQuery. induction rest as [|cur rest IH]; intros prev q Hs.
  { done. }
  cbn [fmap list_fmap] in Hs. apply StronglySorted_inv in Hs as [Hs Hall].
  apply Forall_cons in Hall as [Hle _].
  cbn [updateWalk foldl]. rewrite bool_decide_eq_false_2 by lia.
  by apply IH.
Qed.

Lemma level_sorted (hi lo : list NotebookStep) (c : Z) :
  Forall (λ s, stageIndex s = c) hi →
  Forall (λ s, stageIndex s = (-1)%Z) lo →
  (-1 ≤ c)%Z →
  StronglySorted (λ a b, stageIndex b ≤ stageIndex a)%Z (hi ++ lo).
Proof.
  intros Hhi Hlo Hc. induction Hhi as [|x hi Hx Hhi IH]; cbn [app].
  - induction Hlo as [|y lo Hy Hlo IH]; constructor; [done|].
    eapply Forall_impl; [exact Hlo|]. cbn. intros z Hz. lia.
  - constructor; [done|]. apply Forall_app. split.
    + eapply Forall_impl; [exact Hhi|]. cbn. intros z Hz. lia.
    + eapply Forall_impl; [exact Hlo|]. cbn. intros z Hz. lia.
Qed.

(** In the last stage the stage indexes never rise along the raw list:
    the sentinel of the sort and limit instances comes last. *)
Lemma last_stage_raw_sorted topQ stageQuery i openSteps :
  StronglySorted (λ a b, stageIndex b ≤ stageIndex a)%Z
    (rawSteps topQ stageQuery i true openSteps).
Proof.
  rewrite rawSteps_entries, rawEntries_shape.
  cbn [fmap list_fmap]. rewrite fmap_app. cbn [fmap list_fmap fst snd].
  set (g := λ e : NotebookStepDef * option nat,
         getStep topQ stageQuery i true openSteps e.1 e.2).
  set (J := g <$> _).
  change (StronglySorted (λ a b, stageIndex b ≤ stageIndex a)%Z
    (getStep topQ stageQuery i true openSteps dataStep None ::
     J ++ ([getStep topQ stageQuery i true openSteps expressionStep None;
            getStep topQ stageQuery i true openSteps filterStep None;
            getStep topQ stageQuery i true openSteps summarizeStep None] ++
           [getStep topQ stageQuery i true openSteps sortStep None;
            getStep topQ stageQuery i true openSteps limitStep None]))).
  rewrite app_assoc, app_comm_cons.
  apply (level_sorted _ _ (Z.of_nat i)); [| |lia].
  - apply Forall_cons. split; [done|]. apply Forall_app. split.
    + apply Forall_fmap, Forall_fmap, Forall_forall. by intros k _.
    + by repeat constructor.
  - by repeat constructor.
Qed.

Lemma single_stage_stageIndexes question0 openSteps stageQuery :
  queries (stagedQuery question0) = [stageQuery] →
  StronglySorted (λ a b, b ≤ a)%Z
    (stageIndex <$> getQuestionSteps question0 openSteps).
Proof.
  intros Hq. rewrite (question_fields stageIndex) by done.
  destruct (isStructured question0); [|constructor].
  unfold stageEntries. rewrite Hq.
  cbn [imap fmap list_fmap concat]. rewrite app_nil_r.
  unfold stageResult. rewrite Hq. cbn [fst snd length Nat.sub].
  rewrite bool_decide_eq_true_2 by done.
  set (topQ := getMLv2Query _).
  replace (stageIndex <$> steps (getStageSteps topQ stageQuery 0 true openSteps))
    with (stageIndex <$> (underived <$>
            steps (getStageSteps topQ stageQuery 0 true openSteps))).
  2: { by rewrite <- list_fmap_compose. }
  rewrite underived_steps.
  apply StronglySorted_fmap with
    (R1 := (λ a b, stageIndex b ≤ stageIndex a)%Z); [done|].
  apply sorted_filter, last_stage_raw_sorted.
Qed.

(** X9.  In a question of one stage, [update] on a returned step sets the
    new dataset query on the stage query, hands the result to the [clean]
    of every later returned step, in order, and strips empty nesting:
    the stage boundary branch ([setSourceQuery]) is never taken, although
    the sort and limit steps carry the stage index [-1], because these
    come last. *)
Theorem update_in_one_stage_composes_cleans question0 openSteps stageQuery
    k step datasetQuery :
  queries (stagedQuery question0) = [stageQuery] →
  getQuestionSteps question0 openSteps !! k = Some step →
  query step = stageQuery ∧
  update (getQuestionSteps question0 openSteps) k datasetQuery =
  Some (cleanNesting
          (foldl (λ q s, clean s q) (setDatasetQuery stageQuery datasetQuery)
             (drop (S k) (getQuestionSteps question0 openSteps)))).
Proof.
  intros Hq Hk.
  assert (query step = stageQuery) as Hquery.
  { apply list_elem_of_lookup_2, getQuestionSteps_elem in Hk
      as (i & q & s0 & Hi & Hs0 & Hsame).
    rewrite Hq in Hi. apply list_lookup_singleton_Some in Hi as [-> ->].
    apply sameButActions_fields in Hsame as (_ & _ & _ & _ & -> & _).
    rewrite getStageSteps_steps in Hs0.
    apply keptSteps_raw in Hs0 as (s1 & acts & p & Hs1 & ->).
    by apply rawSteps_elem in Hs1 as (STEP & idx & _ & ->). }
  split; [done|].
  unfold update, cascade. rewrite Hk, Hquery. do 2 f_equal.
  apply updateWalk_no_boundary.
  pose proof (single_stage_stageIndexes question0 openSteps stageQuery Hq)
    as Hsorted.
  rewrite <- (take_drop_middle _ _ _ Hk) in Hsorted.
  rewrite fmap_app in Hsorted.
  by apply StronglySorted_app in Hsorted as (_ & _ & ?).
Qed.

End DerivationFacts.

(** *** The further properties on concrete questions *)

Section DerivedQuestions.
Import Model Examples.


(** The actions of that question, by the id they open. *)
Example two_stage_actions :
  (λ s, (id s, action_openStep <$> actions s)) <$>
    getQuestionSteps (L:=lib) twoStageQuestion ∅
  = [("0:data", ["0:join"; "0:expression"; "0:filter"]);
     ("0:summarize", ["0:sort"; "0:limit"; "1:join"; "1:expression"]);
     ("1:filter", ["1:summarize"]);
     ("1:sort", ["1:limit"])].
Proof. vm_compute. reflexivity. Qed.

(** The first action of the data step of a filtered, sorted and limited
    table opens the join step; the filter step is shown. *)
Lemma actions_never_open_a_shown_step_witness :
  match
    s ← getQuestionSteps (L:=lib) filterSortLimitQuestion ∅ !! 0;
    a ← actions s !! 0;
    s' ← getQuestionSteps (L:=lib) filterSortLimitQuestion ∅ !! 1;
    Some (s, a, s')
  with
  | Some (s, a, s') => id s' ≠ action_openStep a
  | None => False
  end.
Proof.
  destruct (_ ≫= _) as [[[s a] s']|] eqn:E.
  - apply bind_Some in E as (s1 & Es & E).
    apply bind_Some in E as (a1 & Ea & E).
    apply bind_Some in E as (s2 & Es' & [= <- <- <-]).
    apply (actions_never_open_a_shown_step (L:=lib) filterSortLimitQuestion ∅
             s1 a1 s2); by eapply list_elem_of_lookup_2.
  - vm_compute in E. discriminate E.
Defined.

Lemma opening_an_action_adds_its_step_witness :
  match
    s ← getQuestionSteps (L:=lib) filterSortLimitQuestion ∅ !! 1;
    a ← actions s !! 0;
    Some (s, a)
  with
  | Some (s, a) =>
      ∃ before after,
        id <$> getQuestionSteps (L:=lib) filterSortLimitQuestion ∅
          = before ++ after ∧
        id <$> getQuestionSteps (L:=lib) filterSortLimitQuestion
                 (<[action_openStep a := true]> ∅)
          = before ++ action_openStep a :: after
  | None => False
  end.
Proof.
  destruct (_ ≫= _) as [[s a]|] eqn:E.
  - apply bind_Some in E as (s1 & Es & E).
    apply bind_Some in E as (a1 & Ea & [= <- <-]).
    apply (opening_an_action_adds_its_step (L:=lib) filterSortLimitQuestion ∅
             s1 a1); by eapply list_elem_of_lookup_2.
  - vm_compute in E. discriminate E.
Defined.

(** The action of the filter step of that question opens the summarize
    step, which then shows between the filter and the sort. *)
Example open_summarize_step :
  (λ s, action_openStep <$> actions s) <$>
    getQuestionSteps (L:=lib) filterSortLimitQuestion ∅ !! 1
    = Some ["0:summarize"] ∧
  id <$> getQuestionSteps (L:=lib) filterSortLimitQuestion ∅
    = ["0:data"; "0:filter"; "0:sort"; "0:limit"] ∧
  id <$> getQuestionSteps (L:=lib) filterSortLimitQuestion
           (<["0:summarize" := true]> ∅)
    = ["0:data"; "0:filter"; "0:summarize"; "0:sort"; "0:limit"].
Proof. vm_compute. repeat split; reflexivity. Qed.

(** The filter step of that question with the summarize step closed and
    open: its action goes, its other fields stay. *)
Lemma open_set_keeps_step_fields_witness :
  match
    getQuestionSteps (L:=lib) filterSortLimitQuestion ∅ !! 1,
    getQuestionSteps (L:=lib) filterSortLimitQuestion
      (<["0:summarize" := true]> ∅) !! 1
  with
  | Some s, Some s' =>
      id s = id s' ∧ length (actions s) ≠ length (actions s') ∧
      set_actions [] s = set_actions [] s'
  | _, _ => False
  end.
Proof.
  destruct (getQuestionSteps (L:=lib) filterSortLimitQuestion ∅ !! 1)
    as [s|] eqn:E; [|vm_compute in E; discriminate E].
  destruct (getQuestionSteps (L:=lib) filterSortLimitQuestion
              (<["0:summarize" := true]> ∅) !! 1)
    as [s'|] eqn:E'; [|vm_compute in E'; discriminate E'].
  assert (id s = id s' ∧ length (actions s) ≠ length (actions s'))
    as [Hid Hlen].
  { pose proof E as F. pose proof E' as F'. vm_compute in F, F'.
    injection F as <-. injection F' as <-. split; [reflexivity|].
    cbn. discriminate. }
  split; [done|]. split; [done|].
  apply (open_set_keeps_step_fields (L:=lib) filterSortLimitQuestion ∅
           (<["0:summarize" := true]> ∅) s s');
    [by eapply list_elem_of_lookup_2|by eapply list_elem_of_lookup_2|done].
Defined.

(** What does change for that filter step: its [next] is the sort step
    with the summarize step closed and the summarize step with it open,
    and its [update], given a query with an aggregation that is not in
    order, keeps the aggregation in the first case and drops it in the
    second, where the walk passes the summarize step. *)
Example open_set_changes_next_and_update :
  let closed := getQuestionSteps (L:=lib) filterSortLimitQuestion ∅ in
  let opened := getQuestionSteps (L:=lib) filterSortLimitQuestion
                  (<["0:summarize" := true]> ∅) in
  let edited := mkQuery (Some sampleDb) []
                  (setAggregations [staleClause 4] tableStage) in
  id <$> closed !! 1 = Some "0:filter" ∧
  id <$> opened !! 1 = Some "0:filter" ∧
  id <$> next closed 1 = Some "0:sort" ∧
  id <$> next opened 1 = Some "0:summarize" ∧
  update (L:=lib) closed 1 edited = Some edited ∧
  update (L:=lib) opened 1 edited = Some plainQuery.
Proof. vm_compute. repeat split; reflexivity. Qed.

(** [update] on the filter step of that question. *)
Lemma update_in_one_stage_composes_cleans_witness :
  match getQuestionSteps (L:=lib) filterSortLimitQuestion ∅ !! 1 with
  | Some step =>
      query step = filterSortLimitQuery ∧
      update (L:=lib) (getQuestionSteps (L:=lib) filterSortLimitQuestion ∅) 1
        twoJoinsQuery =
      Some (@cleanNesting lib
              (foldl (λ q s, clean s q)
                 (@setDatasetQuery lib filterSortLimitQuery twoJoinsQuery)
                 (drop 2 (getQuestionSteps (L:=lib) filterSortLimitQuestion ∅))))
  | None => False
  end.
Proof.
  destruct (getQuestionSteps (L:=lib) filterSortLimitQuestion ∅ !! 1)
    as [step|] eqn:E.
  - apply (update_in_one_stage_composes_cleans (L:=lib)
             filterSortLimitQuestion ∅ filterSortLimitQuery 1 step
             twoJoinsQuery); [vm_compute; reflexivity|exact E].
  - vm_compute in E. discriminate E.
Defined.

End DerivedQuestions.
